(** * Per-category annotator agreement

    A shallow embedding of [agreement_rate_by_category] and [choose2] from
    the notebook [annotator-agreement.ipynb], and the properties of the
    accumulated agreement and potential counts and of the returned rates;
    then of the synthetic annotator [model] and of the three experiments
    [high], [low] and [mixed] the notebook feeds to the function, with the
    floats returned by [random.random()] as an explicit sequence.

    Modelling choices, all taken from the Python source:
    - labels are values of a type [L] with decidable equality that can be
      used as dictionary keys ([Countable L]), equality on [L] standing
      for Python's [==] on labels; the concrete examples use integer
      labels ([Z]);
    - a row is a [list L], a dataset a [list (list L)];
    - the two [defaultdict(int)] accumulators are [gmap L Z]: a key that
      was never written reads as [0], and the floats they hold are all
      integers, so a float is modelled by the integer it holds;
    - the arithmetic is given twice. The first part computes [choose2],
      the subtraction and every [+=] exactly, on unbounded integers.
      [Module Float64] computes them as the interpreter does, in IEEE 754
      double precision: every operation rounds its result to the nearest
      double. The two agree on every dataset whose squared row lengths
      sum to at most [2^53] ([float_exact_on_small_data]), so a theorem
      of the exact part holds of the running code on such datasets;
      beyond, rounding shows (see the last sections);
    - the final [agreement[cat] / potential[cat]] is the only operation
      that can raise ([ZeroDivisionError]); the function returns an
      [option], [None] standing for the raised exception, and a rate is
      the exact quotient of the two accumulated counts, a rational in
      lowest terms (the float Python returns is this quotient rounded
      once). *)

From Stdlib Require Import ZArith QArith Qreduction Lia.
From stdpp Require Import base option list gmap sets fin_maps.

Local Close Scope Q_scope.
Local Open Scope Z_scope.

(** ** The source functions *)

(** [def choose2(n): return n*(n-1)/2], computed exactly ([n*(n-1)] is
    even); [Float64.choose2] rounds the quotient to a double. *)
Definition choose2 (n : Z) : Z := n * (n - 1) / 2.

(** [x / y] on numbers: raises [ZeroDivisionError] when [y] is zero. *)
Definition true_div (x y : Z) : option Q :=
  if decide (y = 0) then None else Some (Qred (inject_Z x / inject_Z y)).

Section calculator.
Context `{Countable L}.

(** [row.count(cat)] *)
Definition count (row : list L) (cat : L) : Z :=
  Z.of_nat (length (filter (λ x, x = cat) row)).

(** [len(row)] *)
Definition len (row : list L) : Z := Z.of_nat (length row).

(** [set(row)], in the order in which the loop visits it. *)
Definition set (row : list L) : list L :=
  elements (list_to_set row : gset L).

(** [d[k]] on a [defaultdict(int)] *)
Definition get (d : gmap L Z) (k : L) : Z := default 0 (d !! k).

(** [d[k] += v] on a [defaultdict(int)], computed exactly. *)
Definition iadd (d : gmap L Z) (k : L) (v : Z) : gmap L Z :=
  <[k := get d k + v]> d.

(** The two local dictionaries of [agreement_rate_by_category]. *)
Record accumulators : Type := Accs {
  agreement : gmap L Z;
  potential : gmap L Z
}.

Definition init : accumulators := Accs ∅ ∅.

(** Body of the inner loop [for cat in set(row)], computed exactly. *)
Definition body (row : list L) (st : accumulators) (cat : L) : accumulators :=
  let count := count row cat in
  Accs (iadd (agreement st) cat (choose2 count))
       (iadd (potential st) cat (count * len row - choose2 (count + 1))).

(** The inner loop, visiting the distinct labels in the order [cats]. *)
Definition visit (row : list L) (cats : list L) (st : accumulators) : accumulators :=
  foldl (body row) st cats.

(** Body of the outer loop [for row in data]. *)
Definition step (st : accumulators) (row : list L) : accumulators :=
  visit row (set row) st.

(** Both loops, from the given accumulators. *)
Definition accumulate_from (st : accumulators) (data : list (list L)) : accumulators :=
  foldl step st data.

Definition accumulate (data : list (list L)) : accumulators :=
  accumulate_from init data.

(** [{cat: agreement[cat] / potential[cat] for cat in agreement}]:
    the first zero denominator aborts the whole comprehension. *)
Definition comprehension (st : accumulators) : option (gmap L Q) :=
  list_to_map <$>
    mapM (λ '(cat, a), pair cat <$> true_div a (get (potential st) cat))
         (map_to_list (agreement st)).

Definition agreement_rate_by_category (data : list (list L)) : option (gmap L Q) :=
  comprehension (accumulate data).

(** ** The rate as the specification words it *)

(** Sum over the rows of a dataset. *)
Definition sum_rows (f : list L → Z) (data : list (list L)) : Z :=
  foldr (λ row acc, f row + acc) 0 data.

(** [C(n,2) = n(n-1)/2] *)
Definition C_n_2 (n : Z) : Z := n * (n - 1) / 2.

(** Sum over rows of [C(count,2)]. *)
Definition agreement_total (data : list (list L)) (cat : L) : Z :=
  sum_rows (λ row, C_n_2 (count row cat)) data.

(** Sum over rows of [count*rowLength − C(count+1,2)]. *)
Definition potential_total (data : list (list L)) (cat : L) : Z :=
  sum_rows (λ row, count row cat * len row - C_n_2 (count row cat + 1)) data.

(** A label is observed when it occurs in some row. *)
Definition observed (data : list (list L)) (cat : L) : Prop :=
  ∃ row, row ∈ data ∧ cat ∈ row.

#[global] Instance observed_dec data cat : Decision (observed data cat).
Proof.
  refine (cast_if (decide (Exists (λ row, cat ∈ row) data)));
    unfold observed; by rewrite <- Exists_exists.
Defined.

(** Rows as multisets: a reordering of the rows, then of each row. *)
Definition reordered (data data' : list (list L)) : Prop :=
  ∃ mid, data ≡ₚ mid ∧ Forall2 (≡ₚ) mid data'.

(** ** The loops seen one dictionary at a time (used in the proofs) *)

(** [d[cat] += w cat] for every [cat] of the list [cats]. *)
Definition bump (w : L → Z) (cats : list L) (d : gmap L Z) : gmap L Z :=
  foldl (λ d cat, iadd d cat (w cat)) d cats.

(** One dictionary through both loops: every row adds [W row cat] to the
    entry of each of its distinct labels. *)
Definition tally (W : list L → L → Z) (d : gmap L Z)
    (data : list (list L)) : gmap L Z :=
  foldl (λ d row, bump (W row) (set row) d) d data.
End calculator.

(** ** The synthetic annotation experiments *)

(** The float literals [.95] and [.975], as the rationals they hold. *)
Definition float_95 : Q := (4278419646001971 # 4503599627370496)%Q.
Definition float_975 : Q := (8782019273372467 # 9007199254740992)%Q.

(** [def model(index, value)]; Python's [%] with a positive modulus is
    [Z.modulo]. The float [value] is the rational it holds. *)
Definition model (index : Z) (value : Q) : Z :=
  if Qle_bool value float_95 then index mod 3
  else if Qle_bool value float_975 then (index + 1) mod 3
  else (index + 2) mod 3.

(** The state of the module [random]: the sequence of floats it is going
    to return, and how many of them were returned so far. *)
Record rng : Type := Rng { draws : nat → Q; drawn : nat }.

(** Computations that call [random.random()]. *)
Definition Rand (A : Type) : Type := rng → A * rng.

#[global] Instance Rand_ret : MRet Rand := λ A x g, (x, g).

#[global] Instance Rand_bind : MBind Rand :=
  λ A B f c g, let '(x, g') := c g in f x g'.

(** [random.random()] *)
Definition random : Rand Q :=
  λ g, (draws g (drawn g), Rng (draws g) (S (drawn g))).

(** [range(n)] *)
Definition range (n : nat) : list Z := Z.of_nat <$> seq 0 n.

(** One row of [high]: the three annotators label data point [i]. *)
Definition high_item (i : Z) : Rand (list Z) :=
  a ← random; b ← random; c ← random;
  mret [model i a; model i b; model i c].

(** [high = [[...] for i in range(n)]]; the notebook has [n = 1000]. *)
Definition high_rows (n : nat) : Rand (list (list Z)) :=
  mapM high_item (range n).

Definition high : Rand (list (list Z)) := high_rows 1000.

(** One row of [low]: the third annotator labels [i+1]. *)
Definition low_item (i : Z) : Rand (list Z) :=
  a ← random; b ← random; c ← random;
  mret [model i a; model i b; model (i + 1) c].

Definition low_rows (n : nat) : Rand (list (list Z)) :=
  mapM low_item (range n).

Definition low : Rand (list (list Z)) := low_rows 1000.

(** Body of the loop that fills [mixed]: the third annotator draws a float
    only when the first one answered 0, and answers 1 otherwise. *)
Definition mixed_body (mixed : list (list Z)) (i : Z) : Rand (list (list Z)) :=
  a ← random; b ← random;
  c ← (if decide (model i a = 0)
       then (c ← random; mret (model i c))
       else mret 1);
  mret (mixed ++ [[model i a; model i b; c]]).

(** [for i in ...: mixed.append(...)] *)
Fixpoint mixed_loop (mixed : list (list Z)) (indices : list Z) : Rand (list (list Z)) :=
  match indices with
  | [] => mret mixed
  | i :: indices => mixed' ← mixed_body mixed i; mixed_loop mixed' indices
  end.

Definition mixed_rows (n : nat) : Rand (list (list Z)) :=
  mixed_loop [] (range n).

Definition mixed : Rand (list (list Z)) := mixed_rows 1000.

(** The row appended by one iteration of the loop (used in the proofs). *)
Definition mixed_item (i : Z) : Rand (list Z) :=
  a ← random; b ← random;
  c ← (if decide (model i a = 0)
       then (c ← random; mret (model i c))
       else mret 1);
  mret [model i a; model i b; c].

(** A generator that returns the float [0.5] every time. *)
Definition always_half : rng := Rng (λ _, (1 # 2)%Q) 0.

(** A row of the experiments: three annotators, labels 0, 1 or 2. *)
Definition three_labels (row : list Z) : Prop :=
  length row = 3%nat ∧ Forall (λ x, 0 ≤ x < 3) row.

(** A computation that leaves the sequence of floats alone and draws between [lo]
    and [hi] of them. *)
Definition draws_between {B} (lo hi : nat) (c : Rand B) : Prop :=
  ∀ g, draws (snd (c g)) = draws g ∧
       (drawn g + lo ≤ drawn (snd (c g)) ≤ drawn g + hi)%nat.

(** A generator that never leaves the first branch of [model]: every
    float still to come is at most [.95]. *)
Definition quiet (g : rng) : Prop :=
  ∀ k, (drawn g ≤ k)%nat → Qle_bool (draws g k) float_95 = true.

(** ** The arithmetic of the interpreter: double precision

    Python computes [n*(n-1)/2], the difference [int - float] and every
    [+=] of the two dictionaries in IEEE 754 double precision. All these
    values are integers, so a float is modelled by the integer it holds
    and each operation rounds its exact result to the nearest double, ties
    to the even significand. Up to [2^53] every integer is a double; above,
    the doubles between [2^e] and [2^(e+1)] are the multiples of
    [2^(e-52)]. (A Python list has fewer than [2^63] items, so no count
    comes near the largest double, [2^1024]: see [no_overflow].)

    The definitions of the first part compute the same counts without
    rounding; [float_exact] shows that both agree on every dataset whose
    squared row lengths sum to at most [2^53]. *)

Module Float64.

(** The multiple of [u] nearest to [x ≥ 0], ties to the even multiple. *)
Definition nearest_even (x u : Z) : Z :=
  let q := x / u in
  let r := x mod u in
  if 2 * r <? u then q * u
  else if u <? 2 * r then (q + 1) * u
  else if Z.even q then q * u else (q + 1) * u.

(** The double nearest to the integer [x]: what [float(x)] holds. *)
Definition round (x : Z) : Z :=
  if Z.abs x <=? 2 ^ 53 then x
  else Z.sgn x * nearest_even (Z.abs x) (2 ^ (Z.log2 (Z.abs x) - 52)).

(** [x + y] and [x - y] on floats. *)
Definition add (x y : Z) : Z := round (x + y).
Definition sub (x y : Z) : Z := round (x - y).

(** [def choose2(n): return n*(n-1)/2]: the product is an exact [int],
    the true division returns the double nearest to the quotient. *)
Definition choose2 (n : Z) : Z := round (n * (n - 1) / 2).

Section calculator.
Context `{Countable L}.

(** [d[k] += v] with a float [v]: the stored value is a float. *)
Definition iadd (d : gmap L Z) (k : L) (v : Z) : gmap L Z :=
  <[k := add (get d k) v]> d.

(** Body of the inner loop: [count * len(row)] is an exact [int], which
    is converted to a float before the float subtraction. *)
Definition body (row : list L) (st : accumulators) (cat : L) : accumulators :=
  let count := count row cat in
  Accs (iadd (agreement st) cat (choose2 count))
       (iadd (potential st) cat
             (sub (round (count * len row)) (choose2 (count + 1)))).

Definition visit (row : list L) (cats : list L) (st : accumulators) : accumulators :=
  foldl (body row) st cats.

Definition step (st : accumulators) (row : list L) : accumulators :=
  visit row (set row) st.

Definition accumulate_from (st : accumulators) (data : list (list L)) : accumulators :=
  foldl step st data.

Definition accumulate (data : list (list L)) : accumulators :=
  accumulate_from init data.

(** The function as Python runs it: the rate is the quotient of the two
    accumulated floats. *)
Definition agreement_rate_by_category (data : list (list L)) : option (gmap L Q) :=
  comprehension (accumulate data).

End calculator.
End Float64.

(** The sum of the squared row lengths bounds every count of a dataset. *)
Definition weight {L} (data : list (list L)) : Z :=
  sum_rows (λ row, len row * len row) data.

(** Datasets on which no float operation rounds. *)
Definition exact_range {L} (data : list (list L)) : Prop :=
  weight data ≤ 2 ^ 53.

(** A row of [n] copies of one label, [[x] * n], for a large [n]. *)
Definition copies {L} (n : Z) (x : L) : list L := replicate (Z.to_nat n) x.

Example high_row : agreement_rate_by_category [[0; 0; 0]; [1; 1; 2]] =
  Some (list_to_map [(0, 1%Q); (1, (1 # 3)%Q); (2, 0%Q)]).
Proof. vm_compute. reflexivity. Qed.

Example single_row : agreement_rate_by_category [[0; 0; 1]; [2]] = None.
Proof. vm_compute. reflexivity. Qed.

(** ** Arithmetic of [choose2] *)

Lemma choose2_exact (n : Z) : 2 * choose2 n = n * (n - 1).
Proof.
  unfold choose2.
  destruct (Z.Even_or_Odd n) as [[k ->] | [k ->]].
  - replace (2 * k * (2 * k - 1)) with (k * (2 * k - 1) * 2) by ring.
    rewrite Z.div_mul by lia. ring.
  - replace ((2 * k + 1) * (2 * k + 1 - 1)) with ((2 * k + 1) * k * 2) by ring.
    rewrite Z.div_mul by lia. ring.
Qed.

(** The float computed by Python's true division holds exactly the
    integer [choose2 n]. *)
Lemma choose2_true_division (n : Z) :
  (inject_Z (choose2 n) == inject_Z (n * (n - 1)) / inject_Z 2)%Q.
Proof.
  rewrite <- choose2_exact, inject_Z_mult.
  field.
Qed.

Lemma C_n_2_choose2 (n : Z) : C_n_2 n = choose2 n.
Proof. reflexivity. Qed.

Lemma choose2_0 : choose2 0 = 0.
Proof. reflexivity. Qed.

Lemma choose2_nonneg (c : Z) : 0 ≤ c → 0 ≤ choose2 c.
Proof. intros Hc. pose proof (choose2_exact c). nia. Qed.

(** What one row adds to the potential count of a label occurring [c]
    times in a row of length [l]. *)
Lemma row_potential_split (c l : Z) :
  c * l - choose2 (c + 1) = c * (l - c) + choose2 c.
Proof.
  pose proof (choose2_exact c). pose proof (choose2_exact (c + 1)). nia.
Qed.

Lemma row_agreement_le_potential (c l : Z) :
  0 ≤ c ≤ l → choose2 c ≤ c * l - choose2 (c + 1).
Proof. intros Hc. rewrite row_potential_split. nia. Qed.

Lemma row_potential_nonneg (c l : Z) :
  0 ≤ c ≤ l → 0 ≤ c * l - choose2 (c + 1).
Proof.
  intros Hc. pose proof (row_agreement_le_potential c l Hc).
  pose proof (choose2_nonneg c). lia.
Qed.

Lemma row_potential_pos (c l : Z) :
  0 ≤ c ≤ l → (0 < c * l - choose2 (c + 1) ↔ 1 ≤ c ∧ 2 ≤ l).
Proof.
  intros Hc. rewrite row_potential_split.
  pose proof (choose2_exact c). split; [nia|].
  intros [Hc1 Hl]. destruct (decide (c = l)) as [->|]; nia.
Qed.

Lemma row_full_agreement (c l : Z) :
  0 ≤ c ≤ l → (choose2 c = c * l - choose2 (c + 1) ↔ c = 0 ∨ c = l).
Proof. intros Hc. rewrite row_potential_split. nia. Qed.

(** ** Counting labels in a row *)

Section counting.
Context `{Countable L}.
Implicit Types (row : list L) (cat : L) (data : list (list L)).

Lemma count_cons row x cat :
  count (x :: row) cat = (if decide (x = cat) then 1 else 0) + count row cat.
Proof.
  unfold count. rewrite filter_cons.
  destruct (decide (x = cat)); simpl; lia.
Qed.

Lemma count_bounds row cat : 0 ≤ count row cat ≤ len row.
Proof.
  unfold count, len.
  pose proof (length_filter (λ x, x = cat) row). lia.
Qed.

Lemma count_absent row cat : cat ∉ row → count row cat = 0.
Proof.
  induction row as [|x row IH]; [done|].
  rewrite not_elem_of_cons. intros [Hne Hin].
  rewrite count_cons, IH by done.
  destruct (decide (x = cat)); [congruence | done].
Qed.

Lemma count_present row cat : cat ∈ row → 1 ≤ count row cat.
Proof.
  induction row as [|x row IH]; [by rewrite elem_of_nil|].
  rewrite count_cons. pose proof (count_bounds row cat).
  destruct (decide (x = cat)); [lia|].
  rewrite elem_of_cons. intros [->|Hin]; [done|]. apply IH in Hin. lia.
Qed.

Lemma count_pos_iff row cat : 1 ≤ count row cat ↔ cat ∈ row.
Proof.
  split; [|apply count_present].
  destruct (decide (cat ∈ row)) as [|Hn]; [done|].
  rewrite (count_absent _ _ Hn). lia.
Qed.

Lemma count_full row cat :
  count row cat = len row ↔ ∀ x, x ∈ row → x = cat.
Proof.
  induction row as [|x row IH].
  - split; [|done]. intros _ x. by rewrite elem_of_nil.
  - rewrite count_cons. unfold len in *. simpl length.
    pose proof (count_bounds row cat) as Hb. unfold len in Hb.
    destruct (decide (x = cat)) as [->|Hne].
    + split.
      * intros Hc x. rewrite elem_of_cons. intros [->|Hin]; [done|].
        apply IH; [lia | done].
      * intros Hall. cut (count row cat = Z.of_nat (length row)); [lia|].
        apply IH. intros x Hin. apply Hall. by right.
    + split; [lia|]. intros Hall. destruct Hne. apply Hall. by left.
Qed.

Lemma count_permutation row row' cat :
  row ≡ₚ row' → count row cat = count row' cat.
Proof. unfold count. by intros ->. Qed.

Lemma len_permutation row row' : row ≡ₚ row' → len row = len row'.
Proof. unfold len. by intros ->. Qed.

Lemma observed_join data cat : observed data cat ↔ cat ∈ mjoin data.
Proof.
  unfold observed. rewrite list_elem_of_join.
  split; intros (row & ? & ?); by exists row.
Qed.

Lemma observed_nil cat : ¬ observed [] cat.
Proof. intros (row & Hrow & _). by apply elem_of_nil in Hrow. Qed.

Lemma observed_cons row data cat :
  observed (row :: data) cat ↔ cat ∈ row ∨ observed data cat.
Proof.
  unfold observed. split.
  - intros (r & [->|Hr]%elem_of_cons & Hcat); [by left | right; by exists r].
  - intros [Hcat | (r & Hr & Hcat)].
    + exists row. split; [by left | done].
    + exists r. split; [by right | done].
Qed.

Lemma elem_of_set row cat : cat ∈ set row ↔ cat ∈ row.
Proof. unfold set. by rewrite elem_of_elements, elem_of_list_to_set. Qed.

Lemma NoDup_set row : NoDup (set row).
Proof. apply NoDup_elements. Qed.
End counting.

(** ** Sums over the rows *)

Section sums.
Context {L : Type}.
Implicit Types (f g : list L → Z) (data : list (list L)).

Lemma sum_rows_cons f row data :
  sum_rows f (row :: data) = f row + sum_rows f data.
Proof. reflexivity. Qed.

Lemma sum_rows_ext f g data :
  (∀ row, row ∈ data → f row = g row) → sum_rows f data = sum_rows g data.
Proof.
  induction data as [|row data IH]; intros Hfg; [done|].
  rewrite !sum_rows_cons, IH, (Hfg row); [done | by left |].
  intros r Hr. apply Hfg. by right.
Qed.

Lemma sum_rows_permutation f data data' :
  data ≡ₚ data' → sum_rows f data = sum_rows f data'.
Proof.
  induction 1 as [|row d d' _ IH|r1 r2 d|d1 d2 d3 _ IH1 _ IH2];
    rewrite ?sum_rows_cons; [done | by rewrite IH | lia | congruence].
Qed.

Lemma sum_rows_Forall2 (R : relation (list L)) f data data' :
  (∀ r r', R r r' → f r = f r') →
  Forall2 R data data' → sum_rows f data = sum_rows f data'.
Proof.
  intros Hf. induction 1 as [|r r' d d' Hr _ IH]; [done|].
  by rewrite !sum_rows_cons, IH, (Hf r r').
Qed.

Lemma sum_rows_nonneg f data :
  (∀ row, row ∈ data → 0 ≤ f row) → 0 ≤ sum_rows f data.
Proof.
  induction data as [|row data IH]; intros Hf; [done|].
  rewrite sum_rows_cons.
  assert (0 ≤ f row) by (apply Hf; by left).
  assert (0 ≤ sum_rows f data) by (apply IH; intros r Hr; apply Hf; by right).
  lia.
Qed.

Lemma sum_rows_le f g data :
  (∀ row, row ∈ data → f row ≤ g row) → sum_rows f data ≤ sum_rows g data.
Proof.
  induction data as [|row data IH]; intros Hfg; [done|].
  rewrite !sum_rows_cons.
  assert (f row ≤ g row) by (apply Hfg; by left).
  assert (sum_rows f data ≤ sum_rows g data)
    by (apply IH; intros r Hr; apply Hfg; by right).
  lia.
Qed.

(** A sum of non-negative terms is positive exactly when a term is. *)
Lemma sum_rows_pos f data :
  (∀ row, row ∈ data → 0 ≤ f row) →
  (0 < sum_rows f data ↔ ∃ row, row ∈ data ∧ 0 < f row).
Proof.
  induction data as [|row data IH]; intros Hf.
  - split; [by cbn; lia|]. intros (r & Hr & _). by apply elem_of_nil in Hr.
  - rewrite sum_rows_cons.
    assert (0 ≤ f row) by (apply Hf; by left).
    assert (Hd : ∀ r, r ∈ data → 0 ≤ f r) by (intros r Hr; apply Hf; by right).
    pose proof (sum_rows_nonneg f data Hd).
    specialize (IH Hd). split.
    + intros Hpos. destruct (decide (0 < f row)).
      * exists row. split; [by left | done].
      * destruct IH as [IH _]. destruct IH as (r & Hr & Hfr); [lia|].
        exists r. split; [by right | done].
    + intros (r & Hr & Hfr). apply elem_of_cons in Hr as [->|Hr]; [lia|].
      cut (0 < sum_rows f data); [lia|]. apply IH. eauto.
Qed.

(** Two sums with [f ≤ g] termwise agree exactly when all terms do. *)
Lemma sum_rows_eq_le f g data :
  (∀ row, row ∈ data → f row ≤ g row) →
  (sum_rows f data = sum_rows g data ↔ ∀ row, row ∈ data → f row = g row).
Proof.
  induction data as [|row data IH]; intros Hfg.
  - split; [|done]. intros _ r Hr. by apply elem_of_nil in Hr.
  - rewrite !sum_rows_cons.
    assert (f row ≤ g row) by (apply Hfg; by left).
    assert (Hd : ∀ r, r ∈ data → f r ≤ g r) by (intros r Hr; apply Hfg; by right).
    pose proof (sum_rows_le f g data Hd).
    specialize (IH Hd). split.
    + intros Heq r. rewrite elem_of_cons. intros [->|Hr]; [lia|].
      apply IH; [lia | done].
    + intros Hall. rewrite (Hall row) by (by left).
      cut (sum_rows f data = sum_rows g data); [lia|].
      apply IH. intros r Hr. apply Hall. by right.
Qed.

Lemma sum_rows_replicate f (n : nat) row :
  sum_rows f (replicate n row) = Z.of_nat n * f row.
Proof.
  induction n as [|n IH]; [done|].
  cbn [replicate]. rewrite sum_rows_cons, IH. lia.
Qed.
End sums.

(** ** The loops, one dictionary at a time *)

Section loops.
Context `{Countable L}.
Implicit Types (row cats : list L) (cat k : L) (data : list (list L)).
Implicit Types (d : gmap L Z) (st : accumulators (L:=L)).

Lemma get_lookup d k : d !! k = None ∨ d !! k = Some (get d k).
Proof. unfold get. destruct (d !! k); [by right | by left]. Qed.

Lemma get_empty k : get (∅ : gmap L Z) k = 0.
Proof. unfold get. by rewrite lookup_empty. Qed.

Lemma lookup_iadd d k v j :
  iadd d k v !! j = if decide (k = j) then Some (get d k + v) else d !! j.
Proof. unfold iadd. apply lookup_insert. Qed.

Lemma get_iadd d k v j :
  get (iadd d k v) j = get d j + (if decide (k = j) then v else 0).
Proof.
  unfold get at 1. rewrite lookup_iadd.
  destruct (decide (k = j)) as [->|]; [done|]. unfold get. cbn. lia.
Qed.

Lemma lookup_bump w cats d k :
  NoDup cats →
  bump w cats d !! k =
    if decide (k ∈ cats) then Some (get d k + w k) else d !! k.
Proof.
  unfold bump. revert d.
  induction cats as [|c cats IH]; intros d Hnd.
  - by rewrite decide_False by apply not_elem_of_nil.
  - apply NoDup_cons in Hnd as [Hc Hnd]. cbn [foldl].
    rewrite IH by done. destruct (decide (k ∈ cats)) as [Hk|Hk].
    + rewrite decide_True by (by right).
      rewrite get_iadd, decide_False by (by intros ->). f_equal. lia.
    + rewrite lookup_iadd. destruct (decide (c = k)) as [->|Hne].
      * by rewrite decide_True by (by left).
      * rewrite decide_False; [done|].
        rewrite elem_of_cons. intros [->|]; done.
Qed.

Lemma agreement_visit row cats st :
  agreement (visit row cats st) =
    bump (λ cat, choose2 (count row cat)) cats (agreement st).
Proof.
  unfold visit, bump. revert st.
  induction cats as [|c cats IH]; intros st; [done|].
  cbn [foldl]. by rewrite IH.
Qed.

Lemma potential_visit row cats st :
  potential (visit row cats st) =
    bump (λ cat, count row cat * len row - choose2 (count row cat + 1))
         cats (potential st).
Proof.
  unfold visit, bump. revert st.
  induction cats as [|c cats IH]; intros st; [done|].
  cbn [foldl]. by rewrite IH.
Qed.

(** The inner loop does not depend on the order in which the distinct
    labels of the row are visited. *)
Lemma visit_order_irrelevant row cats cats' st :
  NoDup cats → NoDup cats' → (∀ k, k ∈ cats ↔ k ∈ cats') →
  visit row cats st = visit row cats' st.
Proof.
  intros Hnd Hnd' Hsame.
  assert (Hbump : ∀ w d, bump w cats d = bump w cats' d).
  { intros w d. apply map_eq. intros k. rewrite !lookup_bump by done.
    destruct (decide (k ∈ cats)) as [Hk|Hk].
    - by rewrite decide_True by (by apply Hsame).
    - by rewrite decide_False by (by rewrite <- Hsame). }
  pose proof (agreement_visit row cats st) as Ha.
  pose proof (potential_visit row cats st) as Hp.
  rewrite Hbump, <- agreement_visit in Ha.
  rewrite Hbump, <- potential_visit in Hp.
  destruct (visit row cats st), (visit row cats' st). cbn in *. congruence.
Qed.

Lemma agreement_accumulate_from st data :
  agreement (accumulate_from st data) =
    tally (λ row cat, choose2 (count row cat)) (agreement st) data.
Proof.
  unfold accumulate_from, tally. revert st.
  induction data as [|row data IH]; intros st; [done|].
  cbn [foldl]. rewrite IH. unfold step. by rewrite agreement_visit.
Qed.

Lemma potential_accumulate_from st data :
  potential (accumulate_from st data) =
    tally (λ row cat, count row cat * len row - choose2 (count row cat + 1))
          (potential st) data.
Proof.
  unfold accumulate_from, tally. revert st.
  induction data as [|row data IH]; intros st; [done|].
  cbn [foldl]. rewrite IH. unfold step. by rewrite potential_visit.
Qed.

Lemma sum_rows_unobserved (W : list L → L → Z) data k :
  (∀ row, k ∉ row → W row k = 0) →
  ¬ observed data k → sum_rows (λ row, W row k) data = 0.
Proof.
  intros HW. induction data as [|row data IH]; [done|].
  rewrite observed_cons, sum_rows_cons. intros Ho.
  rewrite HW, IH; tauto.
Qed.

Lemma lookup_tally W d data k :
  (∀ row, k ∉ row → W row k = 0) →
  tally W d data !! k =
    if decide (observed data k)
    then Some (get d k + sum_rows (λ row, W row k) data)
    else d !! k.
Proof.
  intros HW. unfold tally. revert d.
  induction data as [|row data IH]; intros d.
  - by rewrite decide_False by apply observed_nil.
  - cbn [foldl]. rewrite IH, sum_rows_cons.
    unfold get at 1. rewrite !lookup_bump by apply NoDup_set.
    pose proof (observed_cons row data k) as Hcons.
    rewrite <- (elem_of_set row k) in Hcons.
    assert (HW' : k ∉ set row → W row k = 0)
      by (rewrite elem_of_set; apply HW).
    pose proof (sum_rows_unobserved W data k HW) as Hzero.
    repeat case_decide; try tauto; try rewrite HW' by done;
      try rewrite Hzero by done; cbn; unfold get; try done; f_equal; lia.
Qed.

(** The accumulated agreement count of a label, in closed form. *)
Lemma lookup_agreement data cat :
  agreement (accumulate data) !! cat =
    if decide (observed data cat) then Some (agreement_total data cat) else None.
Proof.
  unfold accumulate. rewrite agreement_accumulate_from, lookup_tally.
  - cbn [agreement init]. rewrite get_empty, lookup_empty.
    unfold agreement_total. by destruct (decide (observed data cat)).
  - intros row Hk. by rewrite count_absent.
Qed.

(** The accumulated potential count of a label, in closed form. *)
Lemma lookup_potential data cat :
  potential (accumulate data) !! cat =
    if decide (observed data cat) then Some (potential_total data cat) else None.
Proof.
  unfold accumulate. rewrite potential_accumulate_from, lookup_tally.
  - cbn [potential init]. rewrite get_empty, lookup_empty.
    unfold potential_total. by destruct (decide (observed data cat)).
  - intros row Hk. by rewrite count_absent.
Qed.

Lemma agreement_total_unobserved data cat :
  ¬ observed data cat → agreement_total data cat = 0.
Proof.
  intros Ho. unfold agreement_total.
  apply (sum_rows_unobserved (λ row k, C_n_2 (count row k))); [|done].
  intros row Hk. by rewrite count_absent.
Qed.

Lemma potential_total_unobserved data cat :
  ¬ observed data cat → potential_total data cat = 0.
Proof.
  intros Ho. unfold potential_total.
  apply (sum_rows_unobserved
           (λ row k, count row k * len row - C_n_2 (count row k + 1))); [|done].
  intros row Hk. by rewrite count_absent.
Qed.

Lemma get_agreement data cat :
  get (agreement (accumulate data)) cat = agreement_total data cat.
Proof.
  unfold get. rewrite lookup_agreement.
  destruct (decide (observed data cat)); [done|].
  by rewrite agreement_total_unobserved.
Qed.

Lemma get_potential data cat :
  get (potential (accumulate data)) cat = potential_total data cat.
Proof.
  unfold get. rewrite lookup_potential.
  destruct (decide (observed data cat)); [done|].
  by rewrite potential_total_unobserved.
Qed.
End loops.

(** ** The final division *)

Lemma true_div_Some (x y : Z) (r : Q) :
  true_div x y = Some r ↔ y ≠ 0 ∧ r = Qred (inject_Z x / inject_Z y).
Proof.
  unfold true_div. destruct (decide (y = 0)) as [Hy|Hy].
  - split; [done | tauto].
  - split; [intros [= <-]; done | intros [_ ->]; done].
Qed.

Lemma true_div_None (x y : Z) : true_div x y = None ↔ y = 0.
Proof. unfold true_div. by destruct (decide (y = 0)). Qed.

Lemma quotient_range (a p : Z) :
  0 ≤ a ≤ p → 0 < p → (0 <= Qred (inject_Z a / inject_Z p) <= 1)%Q.
Proof.
  intros Hap Hp. rewrite Qred_correct.
  assert (0 < inject_Z p)%Q as HpQ.
  { change (inject_Z 0 < inject_Z p)%Q. by rewrite <- Zlt_Qlt. }
  split.
  - apply Qle_shift_div_l; [done|]. rewrite Qmult_0_l.
    change (inject_Z 0 <= inject_Z a)%Q. rewrite <- Zle_Qle. lia.
  - apply Qle_shift_div_r; [done|]. rewrite Qmult_1_l.
    rewrite <- Zle_Qle. lia.
Qed.

Lemma quotient_one (a p : Z) :
  0 < p → Qred (inject_Z a / inject_Z p) = 1%Q ↔ a = p.
Proof.
  intros Hp. split.
  - intros Hred.
    assert (inject_Z a / inject_Z p == 1)%Q as Hq
      by (by rewrite <- Qred_correct, Hred).
    destruct p as [|p|p]; try lia.
    unfold Qeq, Qdiv, Qmult, Qinv, inject_Z in Hq. cbn in Hq. lia.
  - intros ->. transitivity (Qred 1); [|reflexivity]. apply Qred_complete.
    destruct p as [|p|p]; try lia.
    unfold Qeq, Qdiv, Qmult, Qinv, inject_Z. cbn. lia.
Qed.

Lemma quotient_nonneg (a p : Z) :
  0 ≤ a → 0 < p → (0 <= Qred (inject_Z a / inject_Z p))%Q.
Proof.
  intros Ha Hp. rewrite Qred_correct.
  assert (0 < inject_Z p)%Q as HpQ.
  { change (inject_Z 0 < inject_Z p)%Q. by rewrite <- Zlt_Qlt. }
  apply Qle_shift_div_l; [done|]. rewrite Qmult_0_l.
  change (inject_Z 0 <= inject_Z a)%Q. by rewrite <- Zle_Qle.
Qed.

Lemma quotient_zero (p : Z) : Qred (inject_Z 0 / inject_Z p) = 0%Q.
Proof.
  transitivity (Qred 0); [|reflexivity]. apply Qred_complete.
  unfold Qeq, Qdiv, Qmult. cbn. lia.
Qed.

Section comprehension_facts.
Context `{Countable L}.
Implicit Types (cat k : L) (data : list (list L)).
Implicit Types (st : accumulators (L:=L)) (m : gmap L Q).

Lemma mapM_divide_lookup (pot : gmap L Z) (l : list (L * Z)) (ks : list (L * Q)) k :
  mapM (λ '(cat, a), pair cat <$> true_div a (get pot cat)) l = Some ks →
  (list_to_map ks : gmap L Q) !! k =
    (list_to_map l : gmap L Z) !! k ≫= λ a, true_div a (get pot k).
Proof.
  revert ks. induction l as [|[c a] l IH]; intros ks.
  - intros [= <-]. cbn. by rewrite !lookup_empty.
  - cbn. destruct (true_div a (get pot c)) as [r|] eqn:Hr; [|done]. cbn.
    destruct (mapM _ l) as [ks'|] eqn:Hks; [|done]. cbn.
    intros [= <-]. cbn. rewrite !lookup_insert.
    destruct (decide (c = k)) as [->|]; [done|]. by apply IH.
Qed.

(** What the comprehension returns, key by key. *)
Lemma comprehension_lookup st m k :
  comprehension st = Some m →
  m !! k = agreement st !! k ≫= λ a, true_div a (get (potential st) k).
Proof.
  unfold comprehension. intros Hm.
  apply fmap_Some in Hm as (ks & Hks & ->).
  rewrite (mapM_divide_lookup _ _ _ k Hks).
  by rewrite list_to_map_to_list.
Qed.

(** The comprehension raises exactly when some key has a zero
    denominator. *)
Lemma comprehension_None st :
  comprehension st = None ↔
  ∃ k, is_Some (agreement st !! k) ∧ get (potential st) k = 0.
Proof.
  unfold comprehension. rewrite fmap_None, mapM_None, Exists_exists. split.
  - intros ([k a] & Hin & Hdiv). exists k.
    apply elem_of_map_to_list in Hin. apply fmap_None, true_div_None in Hdiv.
    split; [by exists a | done].
  - intros (k & [a Ha] & Hzero). exists (k, a).
    split; [by apply elem_of_map_to_list|].
    by apply fmap_None, true_div_None.
Qed.

Lemma comprehension_is_Some st :
  (∀ k, is_Some (agreement st !! k) → get (potential st) k ≠ 0) →
  is_Some (comprehension st).
Proof.
  intros Hnz. destruct (comprehension st) as [m|] eqn:Hc; [by exists m|].
  apply comprehension_None in Hc as (k & Hk & Hzero). by destruct (Hnz k).
Qed.

(** The returned rate of an observed label. *)
Lemma rate_lookup data m cat :
  agreement_rate_by_category data = Some m →
  m !! cat =
    if decide (observed data cat)
    then true_div (agreement_total data cat) (potential_total data cat)
    else None.
Proof.
  unfold agreement_rate_by_category. intros Hm.
  rewrite (comprehension_lookup _ _ cat Hm), lookup_agreement, get_potential.
  by destruct (decide (observed data cat)).
Qed.

(** The function raises exactly when an observed label has potential 0. *)
Lemma rate_None data :
  agreement_rate_by_category data = None ↔
  ∃ cat, observed data cat ∧ potential_total data cat = 0.
Proof.
  unfold agreement_rate_by_category. rewrite comprehension_None.
  split; intros (k & Hk & Hzero); exists k;
    rewrite lookup_agreement, get_potential in *;
    by destruct (decide (observed data k)).
Qed.
End comprehension_facts.

(** ** The accumulated counts in closed form *)

Section totals.
Context `{Countable L}.
Implicit Types (row : list L) (cat : L) (data : list (list L)).

Lemma agreement_total_nonneg data cat : 0 ≤ agreement_total data cat.
Proof.
  apply sum_rows_nonneg. intros row _.
  apply choose2_nonneg, count_bounds.
Qed.

Lemma potential_total_nonneg data cat : 0 ≤ potential_total data cat.
Proof.
  apply sum_rows_nonneg. intros row _.
  apply row_potential_nonneg, count_bounds.
Qed.

Lemma agreement_le_potential data cat :
  agreement_total data cat ≤ potential_total data cat.
Proof.
  apply sum_rows_le. intros row _.
  apply row_agreement_le_potential, count_bounds.
Qed.

(** The potential of a label is positive exactly when the label occurs
    in a row with at least two annotators. *)
Lemma potential_total_pos data cat :
  0 < potential_total data cat ↔
  ∃ row, row ∈ data ∧ cat ∈ row ∧ (2 ≤ length row)%nat.
Proof.
  unfold potential_total. rewrite sum_rows_pos.
  - split; intros (row & Hrow & Hpos); exists row; (split; [done|]).
    + apply row_potential_pos in Hpos as [Hc Hl]; [|apply count_bounds].
      apply count_pos_iff in Hc. unfold len in Hl. split; [done | lia].
    + destruct Hpos as [Hc Hl].
      apply row_potential_pos; [apply count_bounds|].
      apply count_pos_iff in Hc. unfold len. lia.
  - intros row _. apply row_potential_nonneg, count_bounds.
Qed.

(** Agreement reaches the potential exactly when every row containing
    the label contains nothing else. *)
Lemma agreement_eq_potential data cat :
  agreement_total data cat = potential_total data cat ↔
  ∀ row, row ∈ data → cat ∈ row → ∀ x, x ∈ row → x = cat.
Proof.
  unfold agreement_total, potential_total. rewrite sum_rows_eq_le.
  - split; intros Hall row Hrow.
    + intros Hcat. apply count_full.
      specialize (Hall row Hrow). rewrite !C_n_2_choose2 in Hall.
      apply row_full_agreement in Hall as [Hz|Hf];
        [| done | apply count_bounds].
      apply count_present in Hcat. lia.
    + apply row_full_agreement; [apply count_bounds|].
      destruct (decide (cat ∈ row)) as [Hcat|Hcat].
      * right. apply count_full. by apply Hall.
      * left. by apply count_absent.
  - intros row _. apply row_agreement_le_potential, count_bounds.
Qed.

Lemma observed_reordered data data' cat :
  reordered data data' → observed data cat ↔ observed data' cat.
Proof.
  intros (mid & Hperm & Hrows). transitivity (observed mid cat).
  - unfold observed. by setoid_rewrite Hperm.
  - clear Hperm. induction Hrows as [|r r' d d' Hr _ IH].
    + done.
    + by rewrite !observed_cons, IH, Hr.
Qed.

Lemma agreement_total_reordered data data' cat :
  reordered data data' → agreement_total data cat = agreement_total data' cat.
Proof.
  intros (mid & Hperm & Hrows). unfold agreement_total.
  rewrite (sum_rows_permutation _ _ _ Hperm).
  apply (sum_rows_Forall2 (≡ₚ)); [|done].
  intros r r' Hr. by rewrite (count_permutation r r').
Qed.

Lemma potential_total_reordered data data' cat :
  reordered data data' → potential_total data cat = potential_total data' cat.
Proof.
  intros (mid & Hperm & Hrows). unfold potential_total.
  rewrite (sum_rows_permutation _ _ _ Hperm).
  apply (sum_rows_Forall2 (≡ₚ)); [|done].
  intros r r' Hr.
  by rewrite (count_permutation r r'), (len_permutation r r').
Qed.

(** Both dictionaries are the same after reordering. *)
Lemma accumulate_reordered data data' :
  reordered data data' → accumulate data = accumulate data'.
Proof.
  intros Hre.
  assert (agreement (accumulate data) = agreement (accumulate data')) as Ha.
  { apply map_eq. intros k. rewrite !lookup_agreement.
    rewrite (agreement_total_reordered _ _ k Hre).
    pose proof (observed_reordered _ _ k Hre).
    repeat case_decide; tauto || done. }
  assert (potential (accumulate data) = potential (accumulate data')) as Hp.
  { apply map_eq. intros k. rewrite !lookup_potential.
    rewrite (potential_total_reordered _ _ k Hre).
    pose proof (observed_reordered _ _ k Hre).
    repeat case_decide; tauto || done. }
  destruct (accumulate data), (accumulate data'). cbn in *. congruence.
Qed.
End totals.

(** ** Properties of [agreement_rate_by_category] *)

Section properties.
Context `{Countable L}.
Implicit Types (row : list L) (cat : L) (data : list (list L)).
Implicit Types (m : gmap L Q).

(** C1. On a non-empty dataset whose rows all have length 1 the function
    does not return a mapping: every observed label has potential 0 and
    the final division raises [ZeroDivisionError]. *)
Theorem single_annotator_rows_raise data :
  data ≠ [] → Forall (λ row, length row = 1%nat) data →
  agreement_rate_by_category data = None.
Proof.
  intros Hne Hall. destruct data as [|row data]; [done|].
  apply rate_None.
  pose proof (Forall_inv Hall) as Hrow.
  destruct row as [|cat [|? ?]]; try done.
  exists cat. split.
  - exists [cat]. split; by left.
  - destruct (decide (0 < potential_total ([cat] :: data) cat)) as [Hpos|Hn].
    + apply potential_total_pos in Hpos as (r & Hr & _ & Hlen).
      rewrite Forall_forall in Hall. specialize (Hall r Hr). cbn in Hall. lia.
    + pose proof (potential_total_nonneg ([cat] :: data) cat). lia.
Qed.

(** C2, as amended. A label that occurs in at least one row of length at
    least 2 has a positive accumulated potential, so the division
    [agreement[cat] / potential[cat]] is defined for it. *)
Theorem potential_nonzero_of_longer_row data cat :
  (∃ row, row ∈ data ∧ cat ∈ row ∧ (2 ≤ length row)%nat) →
  get (potential (accumulate data)) cat ≠ 0 ∧
  is_Some (true_div (get (agreement (accumulate data)) cat)
                    (get (potential (accumulate data)) cat)).
Proof.
  intros Hrow. apply potential_total_pos in Hrow.
  rewrite get_potential, get_agreement. split; [lia|].
  unfold true_div. rewrite decide_False by lia. by eexists.
Qed.

(** Exact arithmetic. When every observed label has a positive accumulated potential,
    the function returns a mapping that sends each observed label to
    the sum over rows of [C(count,2)] divided by the sum over rows of
    [count*rowLength - C(count+1,2)], and has no other key. *)
Theorem rate_is_agreement_over_potential data :
  (∀ cat, observed data cat → 0 < get (potential (accumulate data)) cat) →
  ∃ m, agreement_rate_by_category data = Some m ∧
    ∀ cat, m !! cat =
      if decide (observed data cat)
      then Some (Qred (inject_Z (agreement_total data cat) /
                       inject_Z (potential_total data cat)))
      else None.
Proof.
  intros Hpos.
  destruct (agreement_rate_by_category data) as [m|] eqn:Hm.
  - exists m. split; [done|]. intros cat.
    rewrite (rate_lookup _ _ cat Hm).
    destruct (decide (observed data cat)) as [Ho|]; [|done].
    specialize (Hpos cat Ho). rewrite get_potential in Hpos.
    unfold true_div. by rewrite decide_False by lia.
  - apply rate_None in Hm as (cat & Ho & Hzero).
    specialize (Hpos cat Ho). rewrite get_potential in Hpos. lia.
Qed.

(** Exact arithmetic. Every rate of a returned mapping lies between 0
    and 1. *)
Theorem rate_range data m cat (r : Q) :
  agreement_rate_by_category data = Some m →
  m !! cat = Some r → (0 <= r <= 1)%Q.
Proof.
  intros Hm Hr. rewrite (rate_lookup _ _ cat Hm) in Hr.
  destruct (decide (observed data cat)); [|done].
  apply true_div_Some in Hr as [Hnz ->].
  pose proof (agreement_total_nonneg data cat).
  pose proof (potential_total_nonneg data cat).
  pose proof (agreement_le_potential data cat).
  apply quotient_range; lia.
Qed.

(** Exact arithmetic. Reordering the rows of the dataset and the labels within the
    rows does not change what the function returns (the same mapping,
    or the same exception). *)
Theorem reordering_invariance data data' :
  reordered data data' →
  agreement_rate_by_category data = agreement_rate_by_category data'.
Proof.
  intros Hre. unfold agreement_rate_by_category.
  by rewrite (accumulate_reordered data data' Hre).
Qed.

(** Exact arithmetic. For every dataset and label, the accumulated
    agreement and potential counts are non-negative integers, and the agreement count
    is at most the potential count whenever the latter is positive. *)
Theorem counts_nonneg_and_ordered data cat :
  0 ≤ get (agreement (accumulate data)) cat ∧
  0 ≤ get (potential (accumulate data)) cat ∧
  (0 < get (potential (accumulate data)) cat →
   get (agreement (accumulate data)) cat ≤ get (potential (accumulate data)) cat).
Proof.
  rewrite get_agreement, get_potential.
  pose proof (agreement_total_nonneg data cat).
  pose proof (potential_total_nonneg data cat).
  pose proof (agreement_le_potential data cat).
  lia.
Qed.

(** C7. The keys of a returned mapping are exactly the labels that occur
    in some row of the dataset. *)
Theorem result_keys_are_observed_labels data m :
  agreement_rate_by_category data = Some m →
  ∀ cat, is_Some (m !! cat) ↔ ∃ row, row ∈ data ∧ cat ∈ row.
Proof.
  intros Hm cat. rewrite (rate_lookup _ _ cat Hm).
  change (∃ row, row ∈ data ∧ cat ∈ row) with (observed data cat).
  destruct (decide (observed data cat)) as [Ho|Ho].
  - split; [done|]. intros _.
    destruct (true_div _ _) as [r|] eqn:Hr; [by exists r|].
    apply true_div_None in Hr.
    assert (agreement_rate_by_category data = None) as Hnone
      by (apply rate_None; by exists cat).
    congruence.
  - split; [by intros [? ?] | done].
Qed.

(** C9. On the empty dataset the function returns the empty mapping. *)
Theorem empty_dataset :
  agreement_rate_by_category (L:=L) [] = Some ∅.
Proof.
  unfold agreement_rate_by_category, accumulate, accumulate_from, comprehension.
  cbn [foldl init agreement]. by rewrite map_to_list_empty.
Qed.

(** Exact arithmetic. For a label with positive accumulated potential,
    the rate
    [agreement[cat] / potential[cat]] is exactly 1 if and only if every row
    in which the label occurs consists of that label only; this is the
    rate stored under the label in every mapping the function returns. *)
Theorem rate_one_iff_unanimous data cat :
  0 < get (potential (accumulate data)) cat →
  (true_div (get (agreement (accumulate data)) cat)
            (get (potential (accumulate data)) cat) = Some 1%Q ↔
   ∀ row, row ∈ data → cat ∈ row → ∀ x, x ∈ row → x = cat) ∧
  ∀ m, agreement_rate_by_category data = Some m →
    (m !! cat = Some 1%Q ↔
     ∀ row, row ∈ data → cat ∈ row → ∀ x, x ∈ row → x = cat).
Proof.
  intros Hpos. rewrite get_agreement, get_potential in *.
  assert (Hdiv : true_div (agreement_total data cat) (potential_total data cat)
                   = Some 1%Q ↔
                 agreement_total data cat = potential_total data cat).
  { unfold true_div. rewrite decide_False by lia. split.
    - intros [= Hq]. by apply quotient_one in Hq.
    - intros Heq. f_equal. by apply quotient_one. }
  pose proof (agreement_eq_potential data cat) as Hun.
  split; [by rewrite Hdiv|].
  intros m Hm. rewrite (rate_lookup _ _ cat Hm).
  destruct (decide (observed data cat)) as [Ho|Ho]; [by rewrite Hdiv|].
  rewrite potential_total_unobserved in Hpos by done. lia.
Qed.
End properties.

(** ** Datasets with integer labels *)

Lemma observed_replicate `{Countable L} (n : nat) (row : list L) (cat : L) :
  observed (replicate n row) cat ↔ n ≠ 0%nat ∧ cat ∈ row.
Proof.
  unfold observed. split.
  - intros (r & [-> Hn]%elem_of_replicate & Hcat). done.
  - intros [Hn Hcat]. exists row. by rewrite elem_of_replicate.
Qed.

(** C8. On the row [[0,1,2]] repeated [N ≥ 1] times each of the three
    labels accumulates agreement 0 and potential [2*N], and the function
    returns the rate 0 for each of the three labels. *)
Theorem total_disagreement (N : nat) :
  (1 ≤ N)%nat →
  (∀ cat : Z, cat ∈ [0; 1; 2] →
     agreement (accumulate (replicate N [0; 1; 2])) !! cat = Some 0 ∧
     potential (accumulate (replicate N [0; 1; 2])) !! cat = Some (2 * Z.of_nat N)) ∧
  agreement_rate_by_category (replicate N [0; 1; 2]) =
    Some (list_to_map [(0, 0%Q); (1, 0%Q); (2, 0%Q)]).
Proof.
  intros HN.
  assert (Hobs : ∀ cat : Z, observed (replicate N [0; 1; 2]) cat ↔ cat ∈ [0; 1; 2]).
  { intros cat. rewrite observed_replicate. split; [tauto|]. split; [lia | done]. }
  assert (Htot : ∀ cat : Z, cat ∈ [0; 1; 2] →
            agreement_total (replicate N [0; 1; 2]) cat = 0 ∧
            potential_total (replicate N [0; 1; 2]) cat = 2 * Z.of_nat N).
  { intros cat Hcat. unfold agreement_total, potential_total.
    rewrite !sum_rows_replicate.
    repeat (apply elem_of_cons in Hcat as [->|Hcat]); [| | |by apply elem_of_nil in Hcat];
      vm_compute count; vm_compute len; vm_compute C_n_2; lia. }
  split.
  - intros cat Hcat. rewrite lookup_agreement, lookup_potential.
    rewrite !decide_True by (by apply Hobs).
    destruct (Htot cat Hcat) as [-> ->]. done.
  - destruct (agreement_rate_by_category (replicate N [0; 1; 2])) as [m|] eqn:Hm.
    + f_equal. apply map_eq. intros k. rewrite (rate_lookup _ _ k Hm).
      destruct (decide (observed (replicate N [0; 1; 2]) k)) as [Ho|Ho];
        rewrite Hobs in Ho.
      * destruct (Htot k Ho) as [-> ->].
        unfold true_div. rewrite decide_False by lia. rewrite quotient_zero.
        repeat (apply elem_of_cons in Ho as [->|Ho]);
          [done | done | done | by apply elem_of_nil in Ho].
      * symmetry. apply not_elem_of_list_to_map_1. cbn. done.
    + apply rate_None in Hm as (cat & Ho & Hzero).
      apply Hobs in Ho. destruct (Htot cat Ho) as [_ Hp]. lia.
Qed.

(** The function raises on the dataset [[[0]]]. *)
Lemma single_annotator_rows_raise_witness :
  [[0]] ≠ [] ∧ Forall (λ row : list Z, length row = 1%nat) [[0]] ∧
  agreement_rate_by_category [[0]] = None.
Proof.
  assert (H1 : [[0]] ≠ ([] : list (list Z))) by done.
  assert (H2 : Forall (λ row : list Z, length row = 1%nat) [[0]])
    by (repeat constructor).
  exact (conj H1 (conj H2 (single_annotator_rows_raise [[0]] H1 H2))).
Defined.

(** C2 as stated fails: the label 0 occurs in [[[0]]] and its accumulated
    potential is 0. *)
Lemma potential_zero_in_single_annotator_row :
  ¬ ((∃ row : list Z, row ∈ [[0]] ∧ 0 ∈ row) →
     get (potential (accumulate [[0]])) 0 ≠ 0).
Proof.
  intros Hclaim. apply Hclaim; [|reflexivity].
  exists [0]. split; by left.
Qed.

Lemma potential_nonzero_of_longer_row_witness :
  (∃ row : list Z, row ∈ [[0; 1]] ∧ 0 ∈ row ∧ (2 ≤ length row)%nat) ∧
  get (potential (accumulate [[0; 1]])) 0 ≠ 0 ∧
  is_Some (true_div (get (agreement (accumulate [[0; 1]])) 0)
                    (get (potential (accumulate [[0; 1]])) 0)).
Proof.
  assert (Hrow : ∃ row : list Z, row ∈ [[0; 1]] ∧ 0 ∈ row ∧ (2 ≤ length row)%nat).
  { exists [0; 1]. split; [by left|]. split; [by left | simpl; lia]. }
  exact (conj Hrow (potential_nonzero_of_longer_row [[0; 1]] 0 Hrow)).
Defined.





Lemma result_keys_are_observed_labels_witness :
  agreement_rate_by_category [[0; 0; 1]] =
    Some (list_to_map [(0, (1 # 3)%Q); (1, 0%Q)]) ∧
  (is_Some ((list_to_map [(0, (1 # 3)%Q); (1, 0%Q)] : gmap Z Q) !! 1) ↔
   ∃ row : list Z, row ∈ [[0; 0; 1]] ∧ 1 ∈ row).
Proof.
  assert (Hm : agreement_rate_by_category [[0; 0; 1]] =
               Some (list_to_map [(0, (1 # 3)%Q); (1, 0%Q)]))
    by (vm_compute; reflexivity).
  exact (conj Hm (result_keys_are_observed_labels [[0; 0; 1]] _ Hm 1)).
Defined.

Lemma total_disagreement_witness :
  (1 ≤ 2)%nat ∧
  agreement_rate_by_category [[0; 1; 2]; [0; 1; 2]] =
    Some (list_to_map [(0, 0%Q); (1, 0%Q); (2, 0%Q)]).
Proof.
  assert (HN : (1 ≤ 2)%nat) by lia.
  exact (conj HN (proj2 (total_disagreement 2 HN))).
Defined.


(** ** Further properties of the accumulation *)

Section more_sums.
Context {L : Type}.
Implicit Types (f g : list L → Z) (data : list (list L)).

Lemma sum_rows_app f data data' :
  sum_rows f (data ++ data') = sum_rows f data + sum_rows f data'.
Proof.
  induction data as [|row data IH]; [done|].
  cbn [app]. rewrite !sum_rows_cons, IH. lia.
Qed.

Lemma sum_rows_plus f g data :
  sum_rows (λ row, f row + g row) data = sum_rows f data + sum_rows g data.
Proof.
  induction data as [|row data IH]; [done|].
  rewrite !sum_rows_cons, IH. lia.
Qed.

Lemma sum_rows_zero f data :
  (∀ row, row ∈ data → 0 ≤ f row) →
  (sum_rows f data = 0 ↔ ∀ row, row ∈ data → f row = 0).
Proof.
  intros Hf. pose proof (sum_rows_nonneg f data Hf) as Hge.
  pose proof (sum_rows_pos f data Hf) as Hpos. split.
  - intros Hz row Hrow. specialize (Hf row Hrow).
    destruct (decide (0 < f row)) as [Hlt|]; [|lia].
    assert (0 < sum_rows f data) by (apply Hpos; eauto). lia.
  - intros Hall. destruct (decide (0 < sum_rows f data)) as [Hlt|]; [|lia].
    apply Hpos in Hlt as (row & Hrow & Hlt). specialize (Hall row Hrow). lia.
Qed.

Lemma sum_rows_repeat f (k : nat) data :
  sum_rows f (mjoin (replicate k data)) = Z.of_nat k * sum_rows f data.
Proof.
  induction k as [|k IH]; [done|].
  change (mjoin (replicate (S k) data))
    with (data ++ mjoin (replicate k data)).
  rewrite sum_rows_app, IH. lia.
Qed.
End more_sums.

Lemma quotient_zero_iff (a p : Z) :
  0 < p → Qred (inject_Z a / inject_Z p) = 0%Q ↔ a = 0.
Proof.
  intros Hp. split.
  - intros Hred.
    assert (inject_Z a / inject_Z p == 0)%Q as Hq
      by (by rewrite <- Qred_correct, Hred).
    destruct p as [|p|p]; try lia.
    unfold Qeq, Qdiv, Qmult, Qinv, inject_Z in Hq. cbn in Hq. lia.
  - intros ->. apply quotient_zero.
Qed.

Lemma quotient_scale (k a p : Z) :
  0 < k → true_div (k * a) (k * p) = true_div a p.
Proof.
  intros Hk. unfold true_div.
  destruct (decide (p = 0)) as [->|Hp].
  - by rewrite decide_True by lia.
  - rewrite decide_False by nia. f_equal. apply Qred_complete.
    rewrite !inject_Z_mult. field. split.
    + change (¬ inject_Z p == inject_Z 0)%Q. rewrite inject_Z_injective. done.
    + change (¬ inject_Z k == inject_Z 0)%Q. rewrite inject_Z_injective. lia.
Qed.

Section more_facts.
Context `{Countable L}.
Implicit Types (row : list L) (cat : L) (data : list (list L)).
Implicit Types (st : accumulators (L:=L)) (m : gmap L Q).

Lemma observed_app data data' cat :
  observed (data ++ data') cat ↔ observed data cat ∨ observed data' cat.
Proof.
  induction data as [|row data IH]; cbn [app].
  - pose proof (observed_nil cat). tauto.
  - rewrite !observed_cons, IH. tauto.
Qed.

Lemma step_nil st : step st [] = st.
Proof.
  unfold step, set. rewrite list_to_set_nil, elements_empty. reflexivity.
Qed.

Lemma accumulate_from_nonempty st data :
  accumulate_from st (filter (λ row, row ≠ []) data) = accumulate_from st data.
Proof.
  unfold accumulate_from. revert st.
  induction data as [|row data IH]; intros st; [done|].
  rewrite filter_cons. destruct (decide (row ≠ [])) as [Hne|He]; cbn [foldl].
  - apply IH.
  - assert (row = []) as -> by (destruct row; [done | by destruct He]).
    rewrite step_nil. apply IH.
Qed.

(** The rate of an observed label in a returned mapping. *)
Lemma returned_rate data m cat :
  agreement_rate_by_category data = Some m → observed data cat →
  potential_total data cat ≠ 0 ∧
  m !! cat = Some (Qred (inject_Z (agreement_total data cat) /
                         inject_Z (potential_total data cat))).
Proof.
  intros Hm Ho.
  assert (potential_total data cat ≠ 0) as Hnz.
  { intros Hz. assert (agreement_rate_by_category data = None) as Hn
      by (apply rate_None; by exists cat). congruence. }
  split; [done|]. rewrite (rate_lookup _ _ cat Hm), decide_True by done.
  unfold true_div. by rewrite decide_False.
Qed.

(** Two datasets with the same observed labels and the same quotients
    give the same result. *)
Lemma rate_ext data data' :
  (∀ cat, observed data cat ↔ observed data' cat) →
  (∀ cat, observed data cat →
     true_div (agreement_total data cat) (potential_total data cat) =
     true_div (agreement_total data' cat) (potential_total data' cat)) →
  agreement_rate_by_category data = agreement_rate_by_category data'.
Proof.
  intros Hobs Hdiv.
  assert (Hraise : agreement_rate_by_category data = None ↔
                   agreement_rate_by_category data' = None).
  { rewrite !rate_None. split; intros (cat & Ho & Hz); exists cat.
    - split; [by apply Hobs|]. apply (true_div_None (agreement_total data' cat)).
      rewrite <- Hdiv by done. by apply true_div_None.
    - apply Hobs in Ho. split; [done|].
      apply (true_div_None (agreement_total data cat)).
      rewrite Hdiv by done. by apply true_div_None. }
  destruct (agreement_rate_by_category data) as [m|] eqn:Hm,
           (agreement_rate_by_category data') as [m'|] eqn:Hm'.
  - f_equal. apply map_eq. intros cat.
    rewrite (rate_lookup _ _ cat Hm), (rate_lookup _ _ cat Hm').
    destruct (decide (observed data cat)) as [Ho|Ho].
    + rewrite decide_True by (by apply Hobs). by apply Hdiv.
    + by rewrite decide_False by (by rewrite <- Hobs).
  - destruct Hraise as [_ Hr]. by specialize (Hr eq_refl).
  - destruct Hraise as [Hr _]. by specialize (Hr eq_refl).
  - done.
Qed.

(** Unanimous rows of at least two labels: the function returns, and every
    label that occurs has rate 1. *)
Lemma unanimous_rates data :
  (∀ row, row ∈ data →
     (2 ≤ length row)%nat ∧ ∀ x y, x ∈ row → y ∈ row → x = y) →
  ∃ m, agreement_rate_by_category data = Some m ∧
    ∀ cat, observed data cat → m !! cat = Some 1%Q.
Proof.
  intros Huni.
  assert (Hpos : ∀ cat, observed data cat → 0 < potential_total data cat).
  { intros cat (row & Hrow & Hin). apply potential_total_pos.
    exists row. destruct (Huni row Hrow). done. }
  destruct (agreement_rate_by_category data) as [m|] eqn:Hm.
  - exists m. split; [done|]. intros cat Ho.
    destruct (returned_rate _ _ _ Hm Ho) as [_ ->].
    specialize (Hpos cat Ho).
    f_equal. apply quotient_one; [done|]. apply agreement_eq_potential.
    intros row Hrow Hin x Hx. destruct (Huni row Hrow) as [_ Heq]. by apply Heq.
  - apply rate_None in Hm as (cat & Ho & Hz). specialize (Hpos cat Ho). lia.
Qed.

(** A dataset repeated [k ≥ 1] times has the rates of the dataset. *)
Lemma repeated_rates (k : nat) data :
  (1 ≤ k)%nat →
  agreement_rate_by_category (mjoin (replicate k data)) =
  agreement_rate_by_category data.
Proof.
  intros Hk. apply rate_ext.
  - intros cat. rewrite !observed_join. clear -Hk.
    induction k as [|k IH]; [lia|].
    change (mjoin (mjoin (replicate (S k) data)))
      with (mjoin (data ++ mjoin (replicate k data))).
    destruct k as [|k].
    + cbn [replicate mjoin list_join]. by rewrite app_nil_r.
    + rewrite <- !observed_join, observed_app, !observed_join.
      rewrite IH by lia. tauto.
  - intros cat _. unfold agreement_total, potential_total.
    rewrite !sum_rows_repeat. apply quotient_scale. lia.
Qed.

(** Rows of at least two labels never make the function raise. *)
Lemma long_rows_return data :
  (∀ row, row ∈ data → (2 ≤ length row)%nat) →
  is_Some (agreement_rate_by_category data).
Proof.
  intros Hlen. destruct (agreement_rate_by_category data) as [m|] eqn:Hm;
    [by exists m|].
  apply rate_None in Hm as (cat & (row & Hrow & Hin) & Hz).
  assert (0 < potential_total data cat)
    by (apply potential_total_pos; exists row; auto).
  lia.
Qed.
End more_facts.

Section more_properties.
Context `{Countable L}.
Implicit Types (row : list L) (cat : L) (data : list (list L)).
Implicit Types (st : accumulators (L:=L)) (m : gmap L Q).

(** X1. The function raises [ZeroDivisionError] exactly when some label
    occurs in the dataset and every row in which it occurs has length 1. *)
Theorem raises_iff_lonely_label data :
  agreement_rate_by_category data = None ↔
  ∃ cat, observed data cat ∧
         ∀ row, row ∈ data → cat ∈ row → length row = 1%nat.
Proof.
  rewrite rate_None. split; intros (cat & Ho & Hcat); exists cat; (split; [done|]).
  - intros row Hrow Hin.
    destruct (decide (2 ≤ length row)%nat) as [Hlen|Hlen].
    + assert (0 < potential_total data cat)
        by (apply potential_total_pos; by exists row).
      lia.
    + destruct row; [by apply elem_of_nil in Hin | cbn in *; lia].
  - pose proof (potential_total_nonneg data cat).
    destruct (decide (0 < potential_total data cat)) as [Hpos|]; [|lia].
    apply potential_total_pos in Hpos as (row & Hrow & Hin & Hlen).
    specialize (Hcat row Hrow Hin). lia.
Qed.

(** X2. Rows without labels change nothing: removing them from the
    dataset gives the same result. *)
Theorem empty_rows_ignored data :
  agreement_rate_by_category (filter (λ row, row ≠ []) data) =
  agreement_rate_by_category data.
Proof.
  unfold agreement_rate_by_category, accumulate.
  by rewrite accumulate_from_nonempty.
Qed.

(** Exact arithmetic. The counts of a concatenated dataset are the sums of the counts
    of its two parts, and its keys are the union of their keys. *)
Theorem accumulators_additive data data' cat :
  get (agreement (accumulate (data ++ data'))) cat =
    get (agreement (accumulate data)) cat + get (agreement (accumulate data')) cat ∧
  get (potential (accumulate (data ++ data'))) cat =
    get (potential (accumulate data)) cat + get (potential (accumulate data')) cat ∧
  (is_Some (agreement (accumulate (data ++ data')) !! cat) ↔
   is_Some (agreement (accumulate data) !! cat) ∨
   is_Some (agreement (accumulate data') !! cat)).
Proof.
  rewrite !get_agreement, !get_potential, !lookup_agreement.
  unfold agreement_total, potential_total. rewrite !sum_rows_app.
  split; [done|]. split; [done|].
  pose proof (observed_app data data' cat).
  repeat case_decide; rewrite <- ?not_eq_None_Some; try tauto;
    split; try tauto; intros _; (by left) || (by right) || done.
Qed.

(** Exact arithmetic. The potential count of a label is its agreement
    count plus, summed
    over the rows, the number of pairs in which exactly one annotator
    used the label: [count * (len(row) - count)]. *)
Theorem potential_is_agreement_plus_split data cat :
  get (potential (accumulate data)) cat =
    get (agreement (accumulate data)) cat +
    sum_rows (λ row, count row cat * (len row - count row cat)) data.
Proof.
  rewrite get_agreement, get_potential.
  unfold agreement_total, potential_total.
  rewrite Z.add_comm, <- sum_rows_plus.
  apply sum_rows_ext. intros row _.
  rewrite !C_n_2_choose2. apply row_potential_split.
Qed.

(** Exact arithmetic. When every row has at least two labels and all
    labels of a row
    are equal, the function returns the rate 1 for every label that
    occurs, and nothing else. *)
Theorem uniform_rows_rate_one data :
  (∀ row, row ∈ data →
     (2 ≤ length row)%nat ∧ ∀ x y, x ∈ row → y ∈ row → x = y) →
  ∃ m, agreement_rate_by_category data = Some m ∧
    ∀ cat, m !! cat = if decide (observed data cat) then Some 1%Q else None.
Proof.
  intros Huni. destruct (unanimous_rates data Huni) as (m & Hm & Hrates).
  exists m. split; [done|]. intros cat.
  destruct (decide (observed data cat)) as [Ho|Ho]; [by apply Hrates|].
  by rewrite (rate_lookup _ _ cat Hm), decide_False.
Qed.

(** X6. In a returned mapping the rate of a label is exactly 0 if and only
    if no row contains the label more than once. *)
Theorem rate_zero_iff_no_pair data m cat :
  agreement_rate_by_category data = Some m → observed data cat →
  m !! cat = Some 0%Q ↔ ∀ row, row ∈ data → count row cat ≤ 1.
Proof.
  intros Hm Ho. destruct (returned_rate _ _ _ Hm Ho) as [Hnz ->].
  pose proof (potential_total_nonneg data cat).
  assert (agreement_total data cat = 0 ↔ ∀ row, row ∈ data → count row cat ≤ 1)
    as Hzero.
  { unfold agreement_total. rewrite sum_rows_zero.
    - split; intros Hall row Hrow; specialize (Hall row Hrow);
        rewrite C_n_2_choose2 in *; pose proof (count_bounds row cat);
        pose proof (choose2_exact (count row cat)); nia.
    - intros row _. apply choose2_nonneg, count_bounds. }
  rewrite <- Hzero. split.
  - intros [= Hq]. apply quotient_zero_iff in Hq; [done | lia].
  - intros Hz. f_equal. apply quotient_zero_iff; [lia | done].
Qed.

(** Exact arithmetic. Repeating the whole dataset [k ≥ 1] times does not
    change the result: the rates do not depend on the size of the sample. *)
Theorem repetition_invariance (k : nat) data :
  (1 ≤ k)%nat →
  agreement_rate_by_category (mjoin (replicate k data)) =
  agreement_rate_by_category data.
Proof. apply repeated_rates. Qed.

(** X8. The two dictionaries always hold the same keys, the labels that
    occur in the dataset, so the comprehension never reads a missing
    [potential] entry. *)
Theorem same_keys data :
  dom (agreement (accumulate data)) =@{gset L} dom (potential (accumulate data)) ∧
  dom (agreement (accumulate data)) =@{gset L} list_to_set (mjoin data).
Proof.
  split; apply set_eq; intros cat;
    rewrite !elem_of_dom, ?elem_of_list_to_set, <- ?observed_join,
      lookup_agreement, ?lookup_potential;
    destruct (decide (observed data cat));
    rewrite <- ?not_eq_None_Some; split; done.
Qed.

(** X9. The result of the inner loop does not depend on the order in which
    [set(row)] yields the distinct labels of the row. *)
Theorem set_order_irrelevant row (cats : list L) st :
  NoDup cats → (∀ k, k ∈ cats ↔ k ∈ row) →
  visit row cats st = step st row.
Proof.
  intros Hnd Hsame. unfold step.
  apply visit_order_irrelevant; [done | apply NoDup_set |].
  intros k. by rewrite Hsame, elem_of_set.
Qed.
End more_properties.

(** Exact arithmetic. [choose2 n] is a whole number for every integer [n]
    (twice it is
    [n*(n-1)]), it is never negative, and [choose2(n+1) = choose2(n) + n]. *)
Theorem choose2_whole (n : Z) :
  2 * choose2 n = n * (n - 1) ∧ 0 ≤ choose2 n ∧ choose2 (n + 1) = choose2 n + n.
Proof.
  pose proof (choose2_exact n). pose proof (choose2_exact (n + 1)).
  repeat split; nia.
Qed.

(** ** Renaming the labels *)

Section relabel.
Context `{Countable L, Countable L'} (f : L → L') `{!Inj (=) (=) f}.
Implicit Types (row : list L) (cat : L) (data : list (list L)).

Local Abbreviation relabel data := ((λ row : list L, f <$> row) <$> data).

Lemma count_fmap row cat : count (f <$> row) (f cat) = count row cat.
Proof.
  induction row as [|x row IH]; [done|].
  rewrite fmap_cons, !count_cons, IH.
  destruct (decide (x = cat)) as [->|Hne].
  - by rewrite decide_True.
  - rewrite decide_False; [done|]. intros Heq. by apply (inj f) in Heq.
Qed.

Lemma len_fmap row : len (f <$> row) = len row.
Proof. unfold len. by rewrite length_fmap. Qed.

Lemma observed_fmap data (k : L') :
  observed (relabel data) k ↔ ∃ cat, k = f cat ∧ observed data cat.
Proof.
  unfold observed. split.
  - intros (row' & Hrow' & Hk).
    apply list_elem_of_fmap in Hrow' as (row & -> & Hrow). cbn beta in Hk.
    apply list_elem_of_fmap in Hk as (cat & -> & Hcat).
    exists cat. split; [done|]. by exists row.
  - intros (cat & -> & row & Hrow & Hcat). exists (f <$> row).
    split; apply list_elem_of_fmap; eauto.
Qed.

Lemma observed_fmap_inj data cat :
  observed (relabel data) (f cat) ↔ observed data cat.
Proof.
  rewrite observed_fmap. split.
  - intros (cat' & Heq & Ho). by apply (inj f) in Heq as ->.
  - intros Ho. by exists cat.
Qed.

Lemma agreement_total_fmap data cat :
  agreement_total (relabel data) (f cat) = agreement_total data cat.
Proof.
  unfold agreement_total. induction data as [|row data IH]; [done|].
  by rewrite fmap_cons, !sum_rows_cons, IH, count_fmap.
Qed.

Lemma potential_total_fmap data cat :
  potential_total (relabel data) (f cat) = potential_total data cat.
Proof.
  unfold potential_total. induction data as [|row data IH]; [done|].
  by rewrite fmap_cons, !sum_rows_cons, IH, count_fmap, len_fmap.
Qed.

(** X11. Renaming the labels by an injective function renames the keys of
    the result and leaves the rates (or the exception) unchanged: the
    function uses nothing of a label but its equality with other labels. *)
Theorem relabeling_invariance data :
  agreement_rate_by_category (L:=L') (relabel data) =
  (kmap (M2:=gmap L') f <$> agreement_rate_by_category data).
Proof.
  destruct (agreement_rate_by_category data) as [m|] eqn:Hm; cbn.
  - destruct (agreement_rate_by_category (relabel data)) as [m'|] eqn:Hm'.
    + f_equal. apply map_eq. intros k. rewrite (rate_lookup _ _ k Hm').
      destruct (decide (observed (relabel data) k)) as [Ho|Ho].
      * apply observed_fmap in Ho as (cat & -> & Ho).
        rewrite (lookup_kmap (M1:=gmap L) (M2:=gmap L') f m cat).
        rewrite (rate_lookup _ _ cat Hm).
        rewrite decide_True by done.
        by rewrite agreement_total_fmap, potential_total_fmap.
      * symmetry. apply (lookup_kmap_None (M1:=gmap L) (M2:=gmap L') f m k).
        intros cat ->.
        rewrite (rate_lookup _ _ cat Hm). rewrite decide_False; [done|].
        by rewrite <- observed_fmap_inj.
    + apply rate_None in Hm' as (k & Ho & Hz).
      apply observed_fmap in Ho as (cat & -> & Ho).
      rewrite potential_total_fmap in Hz.
      assert (agreement_rate_by_category data = None)
        by (apply rate_None; by exists cat).
      congruence.
  - apply rate_None in Hm as (cat & Ho & Hz). apply rate_None.
    exists (f cat). by rewrite observed_fmap_inj, potential_total_fmap.
Qed.
End relabel.

(** ** The annotator [model] *)

(** Goals about [mod 3]. *)
Local Ltac solve_mod := intros; Z.div_mod_to_equations; lia.

Lemma model_cases (i : Z) (v : Q) :
  model i v = i mod 3 ∧ Qle_bool v float_95 = true ∨
  model i v = (i + 1) mod 3 ∧ Qle_bool v float_95 = false ∨
  model i v = (i + 2) mod 3 ∧ Qle_bool v float_95 = false.
Proof.
  unfold model. destruct (Qle_bool v float_95); [by left|].
  destruct (Qle_bool v float_975); [right; by left | right; by right].
Qed.

Lemma model_quiet (i : Z) (v : Q) :
  Qle_bool v float_95 = true → model i v = i mod 3.
Proof. unfold model. by intros ->. Qed.

(** X12. [model] always answers one of the labels 0, 1, 2, also for a
    negative index, and it answers [index % 3] exactly when the drawn
    float is at most [.95]. *)
Theorem model_label (i : Z) (v : Q) :
  0 ≤ model i v < 3 ∧
  (model i v = i mod 3 ↔ (v <= float_95)%Q).
Proof.
  rewrite <- Qle_bool_iff.
  destruct (model_cases i v) as [[-> Hv]|[[-> Hv]|[-> Hv]]]; rewrite Hv;
    (split; [solve_mod|]); split; try done; solve_mod.
Qed.

(** X13. [model] depends on the index only through [index % 3], and moving
    to the next index moves the answer to the next label, cyclically. *)
Theorem model_cyclic (i : Z) (v : Q) :
  model (i + 3) v = model i v ∧
  model (i mod 3) v = model i v ∧
  model (i + 1) v = (model i v + 1) mod 3.
Proof.
  unfold model.
  destruct (Qle_bool v float_95); [|destruct (Qle_bool v float_975)];
    repeat split; solve_mod.
Qed.

(** ** Computations that draw floats *)

Lemma mapM_Rand_cons {A B} (f : A → Rand B) (x : A) (l : list A) (g : rng) :
  mapM f (x :: l) g =
    (fst (f x g) :: fst (mapM f l (snd (f x g))),
     snd (mapM f l (snd (f x g)))).
Proof.
  cbn. unfold mbind, Rand_bind. destruct (f x g) as [y g1]. cbn.
  by destruct (mapM f l g1) as [k g2].
Qed.

Lemma mapM_Rand_length {A B} (f : A → Rand B) (l : list A) (g : rng) :
  length (fst (mapM f l g)) = length l.
Proof.
  revert g. induction l as [|x l IH]; intros g; [done|].
  rewrite mapM_Rand_cons. cbn. by rewrite IH.
Qed.

(** A property of every item is a property of every row. *)
Lemma mapM_Rand_Forall {A B} (f : A → Rand B) (P : B → Prop) :
  (∀ x g, P (fst (f x g))) →
  ∀ l g, Forall P (fst (mapM f l g)).
Proof.
  intros Hf l. induction l as [|x l IH]; intros g; [by constructor|].
  rewrite mapM_Rand_cons. cbn. constructor; [apply Hf | apply IH].
Qed.

Lemma mapM_Rand_draws {A B} (f : A → Rand B) (lo hi : nat) :
  (∀ x, draws_between lo hi (f x)) →
  ∀ l, draws_between (length l * lo) (length l * hi) (mapM f l).
Proof.
  intros Hf l. induction l as [|x l IH]; intros g.
  - cbn. split; [done | lia].
  - rewrite mapM_Rand_cons. cbn [snd length].
    destruct (Hf x g) as [Hd Hn].
    destruct (IH (snd (f x g))) as [Hd' Hn'].
    split; [congruence | lia].
Qed.

Lemma quiet_random (g : rng) :
  quiet g →
  Qle_bool (fst (random g)) float_95 = true ∧ quiet (snd (random g)).
Proof.
  intros Hq. split; [by apply Hq|].
  intros k Hk. apply Hq. cbn in Hk. lia.
Qed.

(** With a quiet generator every item is a function of its index. *)
Lemma mapM_Rand_quiet {A B} (f : A → Rand B) (h : A → B) :
  (∀ x g, quiet g → fst (f x g) = h x ∧ quiet (snd (f x g))) →
  ∀ l g, quiet g → fst (mapM f l g) = h <$> l.
Proof.
  intros Hf l. induction l as [|x l IH]; intros g Hq; [done|].
  rewrite mapM_Rand_cons. cbn. destruct (Hf x g Hq) as [-> Hq'].
  by rewrite IH.
Qed.

Lemma mixed_body_item (acc : list (list Z)) (i : Z) (g : rng) :
  mixed_body acc i g = (acc ++ [fst (mixed_item i g)], snd (mixed_item i g)).
Proof.
  unfold mixed_body, mixed_item. cbn. unfold mbind, Rand_bind. cbn.
  by destruct (decide (model i (draws g (drawn g)) = 0)).
Qed.

(** The loop that appends to [mixed] builds its rows one item at a time. *)
Lemma mixed_loop_mapM (acc : list (list Z)) (l : list Z) (g : rng) :
  mixed_loop acc l g =
    (acc ++ fst (mapM mixed_item l g), snd (mapM mixed_item l g)).
Proof.
  revert acc g. induction l as [|i l IH]; intros acc g.
  - cbn. by rewrite app_nil_r.
  - rewrite mapM_Rand_cons. cbn [mixed_loop fst snd].
    unfold mbind, Rand_bind.
    rewrite mixed_body_item, IH, <- app_assoc. done.
Qed.

Lemma mixed_rows_mapM (n : nat) (g : rng) :
  mixed_rows n g = mapM mixed_item (range n) g.
Proof.
  unfold mixed_rows. rewrite mixed_loop_mapM. cbn [app].
  by destruct (mapM mixed_item (range n) g).
Qed.

Lemma length_range (n : nat) : length (range n) = n.
Proof. unfold range. by rewrite length_fmap, length_seq. Qed.

(** ** The generated datasets *)

Lemma model_range (i : Z) (v : Q) : 0 ≤ model i v < 3.
Proof.
  destruct (model_cases i v) as [[-> _]|[[-> _]|[-> _]]]; solve_mod.
Qed.

Lemma high_item_shape (i : Z) (g : rng) : three_labels (fst (high_item i g)).
Proof. split; [done|]. repeat constructor; apply model_range. Qed.

Lemma low_item_shape (i : Z) (g : rng) : three_labels (fst (low_item i g)).
Proof. split; [done|]. repeat constructor; apply model_range. Qed.

Lemma mixed_item_shape (i : Z) (g : rng) : three_labels (fst (mixed_item i g)).
Proof.
  unfold mixed_item. cbn. unfold mbind, Rand_bind. cbn.
  destruct (decide (model i (draws g (drawn g)) = 0)); cbn;
    (split; [done|]); repeat constructor; apply model_range || lia.
Qed.

Lemma high_item_draws (i : Z) : draws_between 3 3 (high_item i).
Proof.
  intros g. unfold high_item, mbind, Rand_bind, random. cbn.
  split; [done | lia].
Qed.

Lemma low_item_draws (i : Z) : draws_between 3 3 (low_item i).
Proof.
  intros g. unfold low_item, mbind, Rand_bind, random. cbn.
  split; [done | lia].
Qed.

Lemma mixed_item_draws (i : Z) : draws_between 2 3 (mixed_item i).
Proof.
  intros g. unfold mixed_item. cbn. unfold mbind, Rand_bind. cbn.
  destruct (decide (model i (draws g (drawn g)) = 0)); cbn; (split; [done | lia]).
Qed.

(** Rows of three labels never make the function raise, and the keys of
    the result are among the labels 0, 1, 2. *)
Lemma three_labels_return (data : list (list Z)) :
  Forall three_labels data →
  ∃ m, agreement_rate_by_category data = Some m ∧
       ∀ cat, is_Some (m !! cat) → 0 ≤ cat < 3.
Proof.
  rewrite Forall_forall. intros Hdata.
  destruct (long_rows_return data) as [m Hm].
  { intros row Hrow. destruct (Hdata row Hrow) as [-> _]. lia. }
  exists m. split; [done|]. intros cat. rewrite (rate_lookup _ _ cat Hm).
  destruct (decide (observed data cat)) as [(row & Hrow & Hin)|];
    [|by intros [? ?]].
  intros _. destruct (Hdata row Hrow) as [_ Hlab].
  rewrite Forall_forall in Hlab. by apply Hlab.
Qed.

(** X14. For any floats drawn, each of the three experiments produces
    exactly [n] rows (1000 in the notebook), each of three labels among
    0, 1, 2. *)
Theorem generated_shape (n : nat) (g : rng) :
  (length (fst (high_rows n g)) = n ∧ Forall three_labels (fst (high_rows n g))) ∧
  (length (fst (low_rows n g)) = n ∧ Forall three_labels (fst (low_rows n g))) ∧
  (length (fst (mixed_rows n g)) = n ∧ Forall three_labels (fst (mixed_rows n g))).
Proof.
  rewrite mixed_rows_mapM. unfold high_rows, low_rows.
  rewrite !mapM_Rand_length, !length_range.
  repeat split; apply mapM_Rand_Forall;
    auto using high_item_shape, low_item_shape, mixed_item_shape.
Qed.

(** X15. For any floats drawn, [agreement_rate_by_category] returns a
    mapping on each of the three generated datasets (it never raises on
    them), and the keys of that mapping are among 0, 1, 2. *)
Theorem generated_data_never_raise (n : nat) (g : rng) :
  ∀ data, data ∈ [fst (high_rows n g); fst (low_rows n g); fst (mixed_rows n g)] →
  ∃ m, agreement_rate_by_category data = Some m ∧
       ∀ cat, is_Some (m !! cat) → 0 ≤ cat < 3.
Proof.
  intros data Hdata. apply three_labels_return.
  rewrite mixed_rows_mapM in Hdata. unfold high_rows, low_rows in Hdata.
  repeat (apply elem_of_cons in Hdata as [->|Hdata]);
    [apply mapM_Rand_Forall .. | by apply elem_of_nil in Hdata];
    auto using high_item_shape, low_item_shape, mixed_item_shape.
Qed.

(** X16. Building [high] or [low] with [n] rows draws exactly [3*n] floats;
    building [mixed] draws between [2*n] and [3*n], because the third
    annotator draws only when the first one answered 0. *)
Theorem draws_consumed (n : nat) :
  draws_between (n * 3) (n * 3) (high_rows n) ∧
  draws_between (n * 3) (n * 3) (low_rows n) ∧
  draws_between (n * 2) (n * 3) (mixed_rows n).
Proof.
  pose proof (mapM_Rand_draws high_item 3 3 high_item_draws (range n)) as Hh.
  pose proof (mapM_Rand_draws low_item 3 3 low_item_draws (range n)) as Hl.
  pose proof (mapM_Rand_draws mixed_item 2 3 mixed_item_draws (range n)) as Hm.
  rewrite length_range in Hh, Hl, Hm.
  split; [done|]. split; [done|].
  intros g. rewrite mixed_rows_mapM. apply Hm.
Qed.

(** X17. In every row of [mixed] the third annotator answers 1 unless the
    first annotator answered 0. *)
Theorem mixed_third_annotator (n : nat) (g : rng) :
  Forall (λ row, ∃ a b c, row = [a; b; c] ∧ (a ≠ 0 → c = 1))
         (fst (mixed_rows n g)).
Proof.
  rewrite mixed_rows_mapM. apply mapM_Rand_Forall. intros i g'.
  unfold mixed_item. cbn. unfold mbind, Rand_bind. cbn.
  destruct (decide (model i (draws g' (drawn g')) = 0)) as [Ha|Ha]; cbn;
    do 3 eexists; (split; [reflexivity|]); done.
Qed.

(** ** The experiments without noise *)

Lemma elem_of_range (i : Z) (n : nat) : i ∈ range n ↔ 0 ≤ i < Z.of_nat n.
Proof.
  unfold range. rewrite list_elem_of_fmap. split.
  - intros (j & -> & Hj). apply elem_of_seq in Hj. lia.
  - intros Hi. exists (Z.to_nat i). split; [lia|]. apply elem_of_seq. lia.
Qed.

Lemma range_block (k : nat) :
  range (3 * S k) =
    range (3 * k) ++
    [Z.of_nat (3 * k); Z.of_nat (3 * k) + 1; Z.of_nat (3 * k) + 2].
Proof.
  unfold range. replace (3 * S k)%nat with (3 * k + 3)%nat by lia.
  rewrite seq_app, fmap_app. f_equal. cbn [seq fmap list_fmap].
  repeat f_equal; lia.
Qed.

Lemma join_replicate_snoc {A} (k : nat) (block : list A) :
  mjoin (replicate k block) ++ block = block ++ mjoin (replicate k block).
Proof.
  induction k as [|k IH]; [by rewrite app_nil_r|].
  change (mjoin (replicate (S k) block))
    with (block ++ mjoin (replicate k block)).
  by rewrite <- app_assoc, IH.
Qed.

(** Rows that depend on the index modulo 3 repeat a block of three rows. *)
Lemma periodic_rows (h : Z → list Z) (k : nat) :
  (∀ i, h i = h (i mod 3)) →
  h <$> range (3 * k) = mjoin (replicate k [h 0; h 1; h 2]).
Proof.
  intros Hper. induction k as [|k IH]; [done|].
  rewrite range_block, fmap_app, IH.
  change (mjoin (replicate (S k) [h 0; h 1; h 2]))
    with ([h 0; h 1; h 2] ++ mjoin (replicate k [h 0; h 1; h 2])).
  rewrite <- join_replicate_snoc. f_equal. cbn [fmap list_fmap].
  rewrite (Hper (Z.of_nat (3 * k))), (Hper (Z.of_nat (3 * k) + 1)),
    (Hper (Z.of_nat (3 * k) + 2)).
  replace (Z.of_nat (3 * k) mod 3) with 0 by solve_mod.
  replace ((Z.of_nat (3 * k) + 1) mod 3) with 1 by solve_mod.
  replace ((Z.of_nat (3 * k) + 2) mod 3) with 2 by solve_mod.
  done.
Qed.

Lemma periodic_rates (h : Z → list Z) (k : nat) :
  (∀ i, h i = h (i mod 3)) → (1 ≤ k)%nat →
  agreement_rate_by_category (h <$> range (3 * k)) =
  agreement_rate_by_category [h 0; h 1; h 2].
Proof.
  intros Hper Hk. rewrite periodic_rows by done. by apply repeated_rates.
Qed.

Lemma high_item_quiet (i : Z) (g : rng) :
  quiet g →
  fst (high_item i g) = [i mod 3; i mod 3; i mod 3] ∧
  quiet (snd (high_item i g)).
Proof.
  intros Hq. unfold high_item, mbind, Rand_bind, random. cbn. split.
  - rewrite !model_quiet by (apply Hq; lia). done.
  - intros k Hk. apply Hq. cbn in Hk. lia.
Qed.

Lemma low_item_quiet (i : Z) (g : rng) :
  quiet g →
  fst (low_item i g) = [i mod 3; i mod 3; (i + 1) mod 3] ∧
  quiet (snd (low_item i g)).
Proof.
  intros Hq. unfold low_item, mbind, Rand_bind, random. cbn. split.
  - rewrite !model_quiet by (apply Hq; lia). done.
  - intros k Hk. apply Hq. cbn in Hk. lia.
Qed.

Lemma mixed_item_quiet (i : Z) (g : rng) :
  quiet g →
  fst (mixed_item i g) =
    [i mod 3; i mod 3; if decide (i mod 3 = 0) then i mod 3 else 1] ∧
  quiet (snd (mixed_item i g)).
Proof.
  intros Hq. unfold mixed_item, mbind, Rand_bind, random. cbn.
  rewrite (model_quiet i (draws g (drawn g))) by (apply Hq; lia).
  destruct (decide (i mod 3 = 0)) as [Hz|Hz]; cbn; split.
  - rewrite !model_quiet by (apply Hq; lia). done.
  - intros k Hk. apply Hq. cbn in Hk. lia.
  - rewrite !model_quiet by (apply Hq; lia). done.
  - intros k Hk. apply Hq. cbn in Hk. lia.
Qed.

(** X18. Without noise (every float drawn is at most [.95]) the three
    annotators of [high] always agree, and the function returns the rate 1
    for every label that occurs: the labels below [min(n, 3)]. *)
Theorem quiet_high_rates (n : nat) (g : rng) :
  quiet g →
  ∃ m, agreement_rate_by_category (fst (high_rows n g)) = Some m ∧
    ∀ cat, m !! cat =
      if decide (0 ≤ cat < Z.min (Z.of_nat n) 3) then Some 1%Q else None.
Proof.
  intros Hq. unfold high_rows.
  rewrite (mapM_Rand_quiet high_item (λ i, [i mod 3; i mod 3; i mod 3]))
    by auto using high_item_quiet.
  set (data := (λ i, [i mod 3; i mod 3; i mod 3]) <$> range n).
  destruct (unanimous_rates data) as (m & Hm & Hrates).
  { intros row Hrow. apply list_elem_of_fmap in Hrow as (i & -> & _).
    split; [cbn; lia|]. intros x y Hx Hy.
    repeat (apply elem_of_cons in Hx as [->|Hx]); [| | |by apply elem_of_nil in Hx];
    repeat (apply elem_of_cons in Hy as [->|Hy]); by apply elem_of_nil in Hy || done. }
  exists m. split; [done|]. intros cat.
  destruct (decide (0 ≤ cat < Z.min (Z.of_nat n) 3)) as [Hc|Hc].
  - apply Hrates. exists [cat mod 3; cat mod 3; cat mod 3]. split.
    + apply list_elem_of_fmap. exists cat. split; [done|].
      apply elem_of_range. lia.
    + replace (cat mod 3) with cat by solve_mod. by left.
  - rewrite (rate_lookup _ _ cat Hm). rewrite decide_False; [done|].
    intros (row & Hrow & Hin).
    apply list_elem_of_fmap in Hrow as (i & -> & Hi).
    apply elem_of_range in Hi.
    assert (cat = i mod 3) as ->.
    { repeat (apply elem_of_cons in Hin as [->|Hin]); by apply elem_of_nil in Hin || done. }
    apply Hc. solve_mod.
Qed.

(** X19. Without noise, [low] with [3*k] rows ([k ≥ 1]) has the rate 1/5
    for each of the three labels. *)
Theorem quiet_low_rates (k : nat) (g : rng) :
  quiet g → (1 ≤ k)%nat →
  agreement_rate_by_category (fst (low_rows (3 * k) g)) =
    Some (list_to_map [(0, (1 # 5)%Q); (1, (1 # 5)%Q); (2, (1 # 5)%Q)]).
Proof.
  intros Hq Hk. unfold low_rows.
  rewrite (mapM_Rand_quiet low_item (λ i, [i mod 3; i mod 3; (i + 1) mod 3]))
    by auto using low_item_quiet.
  rewrite (periodic_rates (λ i, [i mod 3; i mod 3; (i + 1) mod 3])); [|  |done].
  - vm_compute. reflexivity.
  - intros i. by rewrite Z.mod_mod, Z.add_mod_idemp_l by lia.
Qed.

(** X20. Without noise, [mixed] with [3*k] rows ([k ≥ 1]) has the rate 1
    for label 0, 3/5 for label 1 and 1/3 for label 2. *)
Theorem quiet_mixed_rates (k : nat) (g : rng) :
  quiet g → (1 ≤ k)%nat →
  agreement_rate_by_category (fst (mixed_rows (3 * k) g)) =
    Some (list_to_map [(0, 1%Q); (1, (3 # 5)%Q); (2, (1 # 3)%Q)]).
Proof.
  intros Hq Hk. rewrite mixed_rows_mapM.
  rewrite (mapM_Rand_quiet mixed_item
             (λ i, [i mod 3; i mod 3; if decide (i mod 3 = 0) then i mod 3 else 1]))
    by auto using mixed_item_quiet.
  rewrite (periodic_rates
             (λ i, [i mod 3; i mod 3; if decide (i mod 3 = 0) then i mod 3 else 1]));
    [| |done].
  - vm_compute. reflexivity.
  - intros i. rewrite !Z.mod_mod by lia. done.
Qed.

(** ** The further properties at concrete inputs *)

Lemma quiet_always_half : quiet always_half.
Proof. intros k _. reflexivity. Qed.


Lemma rate_zero_iff_no_pair_witness :
  agreement_rate_by_category [[0; 1]; [0; 2]] =
    Some (list_to_map [(0, 0%Q); (1, 0%Q); (2, 0%Q)]) ∧
  observed [[0; 1]; [0; 2]] 0 ∧
  ((list_to_map [(0, 0%Q); (1, 0%Q); (2, 0%Q)] : gmap Z Q) !! 0 = Some 0%Q ↔
   ∀ row : list Z, row ∈ [[0; 1]; [0; 2]] → count row 0 ≤ 1).
Proof.
  assert (Hm : agreement_rate_by_category [[0; 1]; [0; 2]] =
               Some (list_to_map [(0, 0%Q); (1, 0%Q); (2, 0%Q)]))
    by (vm_compute; reflexivity).
  assert (Ho : observed [[0; 1]; [0; 2]] 0)
    by (exists [0; 1]; split; by left).
  exact (conj Hm (conj Ho (rate_zero_iff_no_pair _ _ 0 Hm Ho))).
Defined.


Lemma set_order_irrelevant_witness :
  NoDup [1; 0] ∧ (∀ k : Z, k ∈ [1; 0] ↔ k ∈ [0; 1; 0]) ∧
  visit [0; 1; 0] [1; 0] init = step init [0; 1; 0].
Proof.
  assert (Hnd : NoDup [1; 0]).
  { apply NoDup_cons. split; [|apply NoDup_singleton].
    by intros ?%list_elem_of_singleton. }
  assert (Hsame : ∀ k : Z, k ∈ [1; 0] ↔ k ∈ [0; 1; 0])
    by (intros k; rewrite !elem_of_cons, !elem_of_nil; tauto).
  exact (conj Hnd (conj Hsame (set_order_irrelevant [0; 1; 0] [1; 0] init Hnd Hsame))).
Defined.

Lemma relabeling_invariance_witness :
  Inj (=) (=) (λ x : Z, x + 10) ∧
  agreement_rate_by_category
    ((λ row : list Z, (λ x : Z, x + 10) <$> row) <$> [[0; 0; 1]]) =
  (kmap (M2:=gmap Z) (λ x : Z, x + 10) <$> agreement_rate_by_category [[0; 0; 1]]).
Proof.
  assert (Hinj : Inj (=) (=) (λ x : Z, x + 10)) by (intros x y; lia).
  exact (conj Hinj (relabeling_invariance (λ x : Z, x + 10) [[0; 0; 1]])).
Defined.

Lemma generated_data_never_raise_witness :
  fst (mixed_rows 2 always_half) ∈
    [fst (high_rows 2 always_half); fst (low_rows 2 always_half);
     fst (mixed_rows 2 always_half)] ∧
  ∃ m, agreement_rate_by_category (fst (mixed_rows 2 always_half)) = Some m ∧
       ∀ cat, is_Some (m !! cat) → 0 ≤ cat < 3.
Proof.
  assert (Hin : fst (mixed_rows 2 always_half) ∈
            [fst (high_rows 2 always_half); fst (low_rows 2 always_half);
             fst (mixed_rows 2 always_half)])
    by (right; right; left).
  exact (conj Hin (generated_data_never_raise 2 always_half _ Hin)).
Defined.

Lemma quiet_high_rates_witness :
  quiet always_half ∧
  ∃ m, agreement_rate_by_category (fst (high_rows 2 always_half)) = Some m ∧
    ∀ cat, m !! cat =
      if decide (0 ≤ cat < Z.min (Z.of_nat 2) 3) then Some 1%Q else None.
Proof.
  exact (conj quiet_always_half (quiet_high_rates 2 always_half quiet_always_half)).
Defined.

Lemma quiet_low_rates_witness :
  quiet always_half ∧ (1 ≤ 1)%nat ∧
  agreement_rate_by_category (fst (low_rows (3 * 1) always_half)) =
    Some (list_to_map [(0, (1 # 5)%Q); (1, (1 # 5)%Q); (2, (1 # 5)%Q)]).
Proof.
  assert (Hk : (1 ≤ 1)%nat) by lia.
  exact (conj quiet_always_half
           (conj Hk (quiet_low_rates 1 always_half quiet_always_half Hk))).
Defined.

Lemma quiet_mixed_rates_witness :
  quiet always_half ∧ (1 ≤ 1)%nat ∧
  agreement_rate_by_category (fst (mixed_rows (3 * 1) always_half)) =
    Some (list_to_map [(0, 1%Q); (1, (3 # 5)%Q); (2, (1 # 3)%Q)]).
Proof.
  assert (Hk : (1 ≤ 1)%nat) by lia.
  exact (conj quiet_always_half
           (conj Hk (quiet_mixed_rates 1 always_half quiet_always_half Hk))).
Defined.

(** ** Rounding to double precision *)

Lemma round_exact (x : Z) : Z.abs x ≤ 2 ^ 53 → Float64.round x = x.
Proof.
  intros Hx. unfold Float64.round.
  destruct (Z.leb_spec (Z.abs x) (2 ^ 53)); [done | lia].
Qed.

Lemma round_small (x : Z) : 0 ≤ x ≤ 2 ^ 53 → Float64.round x = x.
Proof. intros Hx. apply round_exact. rewrite Z.abs_eq; lia. Qed.

Lemma nearest_even_between (x u : Z) :
  0 < u → x / u * u ≤ Float64.nearest_even x u ≤ (x / u + 1) * u.
Proof.
  intros Hu. unfold Float64.nearest_even. cbv zeta.
  rewrite Z.mul_add_distr_r.
  repeat (destruct (_ <? _)); try destruct (Z.even _); lia.
Qed.

Lemma nearest_even_mono (x y u : Z) :
  0 < u → x ≤ y → Float64.nearest_even x u ≤ Float64.nearest_even y u.
Proof.
  intros Hu Hxy.
  pose proof (Z.div_le_mono x y u Hu Hxy) as Hq.
  destruct (decide (x / u = y / u)) as [Heq|Hne].
  - unfold Float64.nearest_even. cbv zeta. rewrite <- Heq.
    pose proof (Z.div_mod x u ltac:(lia)) as Hx.
    pose proof (Z.div_mod y u ltac:(lia)) as Hy.
    rewrite <- Heq in Hy.
    assert (x mod u ≤ y mod u) by lia.
    rewrite Z.mul_add_distr_r.
    destruct (Z.even _);
      repeat match goal with
             | |- context [?a <? ?b] => destruct (Z.ltb_spec a b)
             end; lia.
  - pose proof (nearest_even_between x u Hu) as Hbx.
    pose proof (nearest_even_between y u Hu) as Hby.
    assert ((x / u + 1) * u ≤ y / u * u) by (apply Z.mul_le_mono_nonneg_r; lia).
    lia.
Qed.

(** Above [2^53] a double is a multiple of the spacing [u] of its binade. *)
Lemma round_big (x : Z) :
  2 ^ 53 < x →
  ∃ u, u = 2 ^ (Z.log2 x - 52) ∧ 2 ≤ u ∧
       2 ^ 52 * u ≤ x < 2 ^ 53 * u ∧
       Float64.round x = Float64.nearest_even x u.
Proof.
  intros Hx. exists (2 ^ (Z.log2 x - 52)).
  assert (53 ≤ Z.log2 x) as He.
  { change 53 with (Z.log2 (2 ^ 53)). apply Z.log2_le_mono. lia. }
  destruct (Z.log2_spec x ltac:(lia)) as [Hlo Hhi].
  assert (2 ^ Z.log2 x = 2 ^ 52 * 2 ^ (Z.log2 x - 52)) as Hsplit.
  { rewrite <- Z.pow_add_r by lia. f_equal. lia. }
  assert (2 ^ Z.succ (Z.log2 x) = 2 ^ 53 * 2 ^ (Z.log2 x - 52)) as Hsplit'.
  { rewrite <- Z.pow_add_r by lia. f_equal. lia. }
  split; [done|]. split.
  { change 2 with (2 ^ 1) at 1. apply Z.pow_le_mono_r; lia. }
  split; [lia|].
  unfold Float64.round.
  destruct (Z.leb_spec (Z.abs x) (2 ^ 53)); [lia|].
  rewrite Z.abs_eq, Z.sgn_pos by lia. lia.
Qed.

Lemma round_big_bounds (x u : Z) :
  0 < u → 2 ^ 52 * u ≤ x < 2 ^ 53 * u →
  2 ^ 52 * u ≤ Float64.nearest_even x u ≤ 2 ^ 53 * u.
Proof.
  intros Hu Hx.
  pose proof (nearest_even_between x u Hu) as Hb.
  assert (2 ^ 52 ≤ x / u) by (apply Z.div_le_lower_bound; lia).
  assert (x / u < 2 ^ 53) by (apply Z.div_lt_upper_bound; lia).
  nia.
Qed.

(** Rounding keeps the order of non-negative integers. *)
Lemma round_mono (x y : Z) :
  0 ≤ x ≤ y → Float64.round x ≤ Float64.round y.
Proof.
  intros Hxy.
  destruct (decide (y ≤ 2 ^ 53)) as [Hy|Hy].
  { rewrite !round_small by lia. lia. }
  destruct (round_big y ltac:(lia)) as (uy & Huy & Hy2 & Hyr & ->).
  pose proof (round_big_bounds y uy ltac:(lia) Hyr) as Hyb.
  destruct (decide (x ≤ 2 ^ 53)) as [Hx|Hx].
  { rewrite round_small by lia. lia. }
  destruct (round_big x ltac:(lia)) as (ux & Hux & Hx2 & Hxr & ->).
  pose proof (round_big_bounds x ux ltac:(lia) Hxr) as Hxb.
  assert (Z.log2 x ≤ Z.log2 y) as Hlog by (apply Z.log2_le_mono; lia).
  destruct (decide (Z.log2 x = Z.log2 y)) as [Heq|Hne].
  - assert (ux = uy) as -> by congruence.
    apply nearest_even_mono; lia.
  - assert (2 * ux ≤ uy).
    { subst ux uy. change 2 with (2 ^ 1) at 1.
      assert (53 ≤ Z.log2 x).
      { change 53 with (Z.log2 (2 ^ 53)). apply Z.log2_le_mono. lia. }
      rewrite <- Z.pow_add_r by lia. apply Z.pow_le_mono_r; lia. }
    lia.
Qed.

Lemma round_nonneg (x : Z) : 0 ≤ x → 0 ≤ Float64.round x.
Proof.
  intros Hx. assert (Float64.round 0 ≤ Float64.round x) as Hle
    by (apply round_mono; lia).
  by rewrite (round_small 0) in Hle by lia.
Qed.

Lemma round_le_double (x b : Z) :
  0 ≤ x ≤ b → Float64.round b = b → Float64.round x ≤ b.
Proof. intros Hx Hb. rewrite <- Hb. by apply round_mono. Qed.

(** ** The loops in double precision *)

Section float_loops.
Context `{Countable L}.
Implicit Types (row cats : list L) (cat k : L) (data : list (list L)).
Implicit Types (d : gmap L Z) (st : accumulators (L:=L)).

Lemma float_get_iadd d k v j :
  get (Float64.iadd d k v) j =
    if decide (k = j) then Float64.add (get d k) v else get d j.
Proof.
  unfold Float64.iadd, get. rewrite lookup_insert.
  by destruct (decide (k = j)).
Qed.

Lemma weight_app data data' : weight (data ++ data') = weight data + weight data'.
Proof. apply sum_rows_app. Qed.

Lemma weight_nonneg data : 0 ≤ weight data.
Proof. apply sum_rows_nonneg. intros row _. apply Z.square_nonneg. Qed.

(** What one row adds to the two counts of a label lies between 0 and the
    squared length of the row. *)
Lemma row_terms_bounds row cat :
  0 ≤ choose2 (count row cat) ≤ len row * len row ∧
  0 ≤ choose2 (count row cat + 1) ≤ count row cat * len row ∧
  0 ≤ count row cat * len row - choose2 (count row cat + 1) ≤ len row * len row ∧
  0 ≤ count row cat * len row ≤ len row * len row.
Proof.
  pose proof (count_bounds row cat) as Hc.
  assert (0 ≤ count row cat + 1) as Hc1 by lia.
  pose proof (choose2_nonneg _ (proj1 Hc)).
  pose proof (choose2_nonneg _ Hc1).
  pose proof (row_potential_nonneg _ _ Hc).
  pose proof (row_agreement_le_potential _ _ Hc).
  nia.
Qed.

Lemma potential_total_le_weight data cat :
  potential_total data cat ≤ weight data.
Proof.
  apply sum_rows_le. intros row _. rewrite C_n_2_choose2.
  pose proof (row_terms_bounds row cat). lia.
Qed.

(** While the counts stay below [2^53] the body of the loop rounds
    nothing. *)
Lemma body_exact row st cat (W : Z) :
  0 ≤ get (agreement st) cat ≤ W → 0 ≤ get (potential st) cat ≤ W →
  W + len row * len row ≤ 2 ^ 53 →
  Float64.body row st cat = body row st cat.
Proof.
  intros Ha Hp HW. unfold Float64.body, body, Float64.iadd, iadd. cbv zeta.
  destruct (row_terms_bounds row cat) as (Hc & Hc1 & Hd & Hcl).
  unfold Float64.choose2. fold (choose2 (count row cat)).
  fold (choose2 (count row cat + 1)).
  rewrite (round_small (choose2 (count row cat))) by lia.
  rewrite (round_small (choose2 (count row cat + 1))) by lia.
  rewrite (round_small (count row cat * len row)) by lia.
  unfold Float64.sub. rewrite (round_small (_ - _)) by lia.
  unfold Float64.add. rewrite !round_small by lia. done.
Qed.

Lemma visit_exact row cats st (W : Z) :
  NoDup cats →
  (∀ k, k ∈ cats → 0 ≤ get (agreement st) k ≤ W ∧ 0 ≤ get (potential st) k ≤ W) →
  W + len row * len row ≤ 2 ^ 53 →
  Float64.visit row cats st = visit row cats st.
Proof.
  intros Hnd Hst HW. unfold Float64.visit, visit. revert st Hst.
  induction cats as [|c cats IH]; intros st Hst; [done|].
  apply NoDup_cons in Hnd as [Hc Hnd]. cbn [foldl].
  destruct (Hst c ltac:(by left)) as [Ha Hp].
  rewrite (body_exact row st c W) by done. apply IH; [done|].
  intros k Hk. assert (c ≠ k) by (by intros ->).
  unfold body. cbn [agreement potential].
  rewrite !get_iadd, !decide_False, !Z.add_0_r by done.
  apply Hst. by right.
Qed.

(** On a dataset whose squared row lengths sum to at most [2^53] the
    double-precision loops compute the exact counts. *)
Lemma accumulate_exact data :
  exact_range data → Float64.accumulate data = accumulate data.
Proof.
  unfold exact_range. induction data as [|row data IH] using rev_ind; [done|].
  rewrite weight_app. unfold weight at 2. cbn [sum_rows foldr]. intros HW.
  pose proof (weight_nonneg data).
  pose proof (Z.square_nonneg (len row)).
  unfold Float64.accumulate, Float64.accumulate_from, accumulate, accumulate_from.
  rewrite !foldl_app. cbn [foldl].
  fold (Float64.accumulate_from init data). fold (Float64.accumulate data).
  fold (accumulate_from init data). fold (accumulate data).
  rewrite IH by lia. unfold Float64.step, step.
  apply (visit_exact row (set row) (accumulate data) (weight data));
    [apply NoDup_set | | lia].
  intros k _. rewrite get_agreement, get_potential.
  pose proof (agreement_total_nonneg data k).
  pose proof (agreement_le_potential data k).
  pose proof (potential_total_le_weight data k). lia.
Qed.

Lemma float_exact data :
  exact_range data →
  Float64.agreement_rate_by_category data = agreement_rate_by_category data.
Proof.
  intros Hd. unfold Float64.agreement_rate_by_category, agreement_rate_by_category.
  by rewrite accumulate_exact.
Qed.

(** A property of the stored floats that every [+=] of the loops keeps. *)
Lemma float_accumulate_invariant (P : Z → Prop) data :
  P 0 →
  (∀ row cat a, row ∈ data → P a →
     P (Float64.add a (Float64.choose2 (count row cat)))) →
  (∀ row cat a, row ∈ data → P a →
     P (Float64.add a (Float64.sub (Float64.round (count row cat * len row))
                                   (Float64.choose2 (count row cat + 1))))) →
  ∀ k, P (get (agreement (Float64.accumulate data)) k) ∧
       P (get (potential (Float64.accumulate data)) k).
Proof.
  intros P0 Hagr Hpot.
  assert (Hvisit : ∀ row cats st, row ∈ data →
            (∀ k, P (get (agreement st) k) ∧ P (get (potential st) k)) →
            ∀ k, P (get (agreement (Float64.visit row cats st)) k) ∧
                 P (get (potential (Float64.visit row cats st)) k)).
  { intros row cats. unfold Float64.visit.
    induction cats as [|c cats IH]; intros st Hrow Hst; [done|].
    cbn [foldl]. apply IH; [done|]. intros k.
    unfold Float64.body. cbn [agreement potential].
    rewrite !float_get_iadd. destruct (Hst c), (Hst k).
    destruct (decide (c = k)); split; auto. }
  unfold Float64.accumulate, Float64.accumulate_from.
  assert (Hinit : ∀ k, P (get (agreement (init (L:=L))) k) ∧
                       P (get (potential (init (L:=L))) k)).
  { intros k. cbn. by rewrite get_empty. }
  revert Hinit. generalize (init (L:=L)).
  assert (Hsub : ∀ row, row ∈ data → row ∈ data) by done.
  revert Hsub. generalize data at 1 3 4 as rows.
  induction rows as [|row rows IH]; intros Hsub st Hst; [done|].
  cbn [foldl]. apply IH.
  - intros r Hr. apply Hsub. by right.
  - unfold Float64.step. apply Hvisit; [apply Hsub; by left | done].
Qed.

(** The accumulated floats are never negative. *)
Lemma float_counts_nonneg data k :
  0 ≤ get (agreement (Float64.accumulate data)) k ∧
  0 ≤ get (potential (Float64.accumulate data)) k.
Proof.
  apply (float_accumulate_invariant (λ v, 0 ≤ v)); [done | |].
  - intros row cat a _ Ha. destruct (row_terms_bounds row cat) as (Hc & _).
    unfold Float64.add, Float64.choose2. fold (choose2 (count row cat)).
    apply round_nonneg.
    assert (0 ≤ Float64.round (choose2 (count row cat)))
      by (apply round_nonneg; lia).
    lia.
  - intros row cat a _ Ha.
    destruct (row_terms_bounds row cat) as (_ & Hc1 & _ & Hcl).
    unfold Float64.add, Float64.sub, Float64.choose2.
    fold (choose2 (count row cat + 1)).
    assert (Float64.round (choose2 (count row cat + 1)) ≤
            Float64.round (count row cat * len row))
      by (apply round_mono; lia).
    apply round_nonneg.
    assert (0 ≤ Float64.round (Float64.round (count row cat * len row) -
                               Float64.round (choose2 (count row cat + 1))))
      by (apply round_nonneg; lia).
    lia.
Qed.
End float_loops.

(** No accumulated float comes near the largest double: with rows of
    fewer than [2^63] labels every stored value stays between 0 and
    [2^190], whatever the number of rows. *)
Lemma no_overflow `{Countable L} (data : list (list L)) (k : L) :
  (∀ row, row ∈ data → len row ≤ 2 ^ 63) →
  0 ≤ get (agreement (Float64.accumulate data)) k ≤ 2 ^ 190 ∧
  0 ≤ get (potential (Float64.accumulate data)) k ≤ 2 ^ 190.
Proof.
  intros Hlen.
  assert (Htop : Float64.round (2 ^ 190 + 2 ^ 126) = 2 ^ 190)
    by (vm_compute; reflexivity).
  assert (Hterm : Float64.round (2 ^ 126) = 2 ^ 126) by (vm_compute; reflexivity).
  assert (Hsq : 2 ^ 63 * 2 ^ 63 = 2 ^ 126) by reflexivity.
  assert (Hstep : ∀ a t, 0 ≤ a ≤ 2 ^ 190 → 0 ≤ t ≤ 2 ^ 126 →
            0 ≤ Float64.add a t ≤ 2 ^ 190).
  { intros a t Ha Ht. unfold Float64.add. split; [apply round_nonneg; lia|].
    rewrite <- Htop. apply round_mono. lia. }
  apply (float_accumulate_invariant (λ v, 0 ≤ v ≤ 2 ^ 190)).
  - split; [done|]. apply Z.pow_nonneg. lia.
  - intros row cat a Hrow Ha. apply Hstep; [done|].
    destruct (row_terms_bounds row cat) as (Hc & _).
    specialize (Hlen row Hrow). pose proof (Z.square_nonneg (len row)).
    assert (0 ≤ len row) by (unfold len; lia).
    assert (len row * len row ≤ 2 ^ 126) by (rewrite <- Hsq; nia).
    unfold Float64.choose2. fold (choose2 (count row cat)).
    split; [apply round_nonneg; lia|].
    rewrite <- Hterm. apply round_mono. lia.
  - intros row cat a Hrow Ha. apply Hstep; [done|].
    destruct (row_terms_bounds row cat) as (_ & Hc1 & _ & Hcl).
    specialize (Hlen row Hrow).
    assert (0 ≤ len row) by (unfold len; lia).
    assert (len row * len row ≤ 2 ^ 126) by (rewrite <- Hsq; nia).
    unfold Float64.sub, Float64.choose2. fold (choose2 (count row cat + 1)).
    assert (Float64.round (choose2 (count row cat + 1)) ≤
            Float64.round (count row cat * len row))
      by (apply round_mono; lia).
    assert (0 ≤ Float64.round (choose2 (count row cat + 1)))
      by (apply round_nonneg; lia).
    assert (Float64.round (count row cat * len row) ≤ 2 ^ 126)
      by (rewrite <- Hterm; apply round_mono; lia).
    split; [apply round_nonneg; lia|].
    rewrite <- Hterm. apply round_mono. lia.
Qed.

(** ** Rows of many copies of one label *)

Section copies_rows.
Context `{Countable L}.
Implicit Types (x y cat : L) (n : Z) (st : accumulators (L:=L)).

Lemma elem_of_copies n x y : 0 < n → y ∈ copies n x ↔ y = x.
Proof.
  intros Hn. unfold copies. rewrite elem_of_replicate. split; [tauto|].
  intros ->. split; [done | lia].
Qed.

Lemma set_copies n x : 0 < n → set (copies n x) = [x].
Proof.
  intros Hn. unfold set.
  assert (list_to_set (copies n x) =@{gset L} {[x]}) as ->.
  { apply set_eq. intros y.
    by rewrite elem_of_list_to_set, elem_of_copies, elem_of_singleton. }
  apply elements_singleton.
Qed.

Lemma count_replicate (m : nat) x : count (replicate m x) x = Z.of_nat m.
Proof.
  induction m as [|m IH]; [done|].
  cbn [replicate]. rewrite count_cons, IH, decide_True by done. lia.
Qed.

Lemma count_copies n x : 0 ≤ n → count (copies n x) x = n.
Proof. intros Hn. unfold copies. rewrite count_replicate. lia. Qed.

Lemma len_copies n x : 0 ≤ n → len (copies n x) = n.
Proof. intros Hn. unfold copies, len. rewrite length_replicate. lia. Qed.

(** One iteration of the outer loop on the row [[x] * n]. *)
Lemma float_step_copies st n x :
  0 < n →
  Float64.step st (copies n x) =
    Accs (Float64.iadd (agreement st) x (Float64.choose2 n))
         (Float64.iadd (potential st) x
            (Float64.sub (Float64.round (n * n)) (Float64.choose2 (n + 1)))).
Proof.
  intros Hn. unfold Float64.step. rewrite set_copies by done.
  unfold Float64.visit. cbn [foldl]. unfold Float64.body. cbv zeta.
  by rewrite count_copies, len_copies by lia.
Qed.

Lemma observed_copies n x cat : 0 < n → observed [copies n x] cat ↔ cat = x.
Proof.
  intros Hn. rewrite observed_cons, elem_of_copies by done.
  pose proof (observed_nil (L:=L) cat). tauto.
Qed.

Lemma agreement_total_copies n x :
  0 ≤ n → agreement_total [copies n x] x = choose2 n.
Proof.
  intros Hn. unfold agreement_total. cbn [sum_rows foldr].
  rewrite count_copies, C_n_2_choose2 by done. lia.
Qed.

Lemma potential_total_copies n x :
  0 ≤ n → potential_total [copies n x] x = n * n - choose2 (n + 1).
Proof.
  intros Hn. unfold potential_total. cbn [sum_rows foldr].
  rewrite count_copies, len_copies, C_n_2_choose2 by done. lia.
Qed.

Lemma unanimous_copies n x (row : list L) :
  0 < n → row ∈ [copies n x] → ∀ y, y ∈ row → y = x.
Proof.
  intros Hn Hrow%list_elem_of_singleton y Hy. subst row.
  by apply elem_of_copies in Hy.
Qed.
End copies_rows.

(** ** The claims in double precision *)

Section float_properties.
Context `{Countable L}.
Implicit Types (row : list L) (cat : L) (data : list (list L)).
Implicit Types (m : gmap L Q).

Lemma weight_reordered data data' :
  reordered data data' → weight data = weight data'.
Proof.
  intros (mid & Hperm & Hrows). unfold weight.
  rewrite (sum_rows_permutation _ _ _ Hperm).
  apply (sum_rows_Forall2 (≡ₚ)); [|done].
  intros r r' Hr. by rewrite (len_permutation r r').
Qed.

Lemma exact_range_app data data' :
  exact_range (data ++ data') → exact_range data ∧ exact_range data'.
Proof.
  unfold exact_range. rewrite weight_app.
  pose proof (weight_nonneg data). pose proof (weight_nonneg data'). lia.
Qed.

Lemma exact_range_repeat (k : nat) data :
  (1 ≤ k)%nat → exact_range (mjoin (replicate k data)) → exact_range data.
Proof.
  unfold exact_range, weight. rewrite sum_rows_repeat. intros Hk.
  pose proof (weight_nonneg data) as Hw. unfold weight in Hw. nia.
Qed.

Lemma float_step_permutation (st : accumulators (L:=L)) row row' :
  row ≡ₚ row' → Float64.step st row = Float64.step st row'.
Proof.
  intros Hperm. unfold Float64.step, set.
  assert (list_to_set row =@{gset L} list_to_set row') as ->.
  { apply set_eq. intros x. by rewrite !elem_of_list_to_set, Hperm. }
  generalize (elements (list_to_set row' : gset L)). intros cats.
  unfold Float64.visit. revert st.
  induction cats as [|c cats IH]; intros st; [done|].
  cbn [foldl]. rewrite IH. f_equal. unfold Float64.body.
  by rewrite (count_permutation row row'), (len_permutation row row').
Qed.

(** Reordering labels within rows leaves the two dictionaries as they
    are. *)
Lemma float_accumulate_within_rows data data' :
  Forall2 (≡ₚ) data data' →
  Float64.accumulate data = Float64.accumulate data'.
Proof.
  unfold Float64.accumulate, Float64.accumulate_from.
  generalize (init (L:=L)). intros st Hrows. revert st.
  induction Hrows as [|r r' d d' Hr _ IH]; intros st; [done|].
  cbn [foldl]. by rewrite (float_step_permutation st r r'), IH.
Qed.

(** C3, as amended. On a dataset whose squared row lengths sum to at most
    [2^53] and in which every observed label has a positive accumulated
    potential, the function returns a mapping that sends each observed
    label to the sum over rows of [C(count,2)] divided by the sum over
    rows of [count*rowLength - C(count+1,2)], and has no other key. *)
Theorem float_rate_is_agreement_over_potential data :
  exact_range data →
  (∀ cat, observed data cat →
     0 < get (potential (Float64.accumulate data)) cat) →
  ∃ m, Float64.agreement_rate_by_category data = Some m ∧
    ∀ cat, m !! cat =
      if decide (observed data cat)
      then Some (Qred (inject_Z (agreement_total data cat) /
                       inject_Z (potential_total data cat)))
      else None.
Proof.
  intros Hd Hpos. rewrite float_exact by done.
  rewrite (accumulate_exact data Hd) in Hpos.
  by apply rate_is_agreement_over_potential.
Qed.

(** C4, as amended. Every rate of a returned mapping is at least 0, and
    it is at most 1 when the squared row lengths of the dataset sum to at
    most [2^53]. *)
Theorem float_rate_range data m cat (r : Q) :
  Float64.agreement_rate_by_category data = Some m →
  m !! cat = Some r →
  (0 <= r)%Q ∧ (exact_range data → (r <= 1)%Q).
Proof.
  intros Hm Hr. split.
  - unfold Float64.agreement_rate_by_category in Hm.
    rewrite (comprehension_lookup _ _ cat Hm) in Hr.
    destruct (agreement (Float64.accumulate data) !! cat) as [a|] eqn:Ha;
      [|done].
    cbn in Hr. apply true_div_Some in Hr as [Hnz ->].
    destruct (float_counts_nonneg data cat) as [Hage Hpge].
    unfold get in Hage at 1. rewrite Ha in Hage. cbn in Hage.
    apply quotient_nonneg; lia.
  - intros Hd. rewrite float_exact in Hm by done.
    by destruct (rate_range data m cat r Hm Hr).
Qed.

(** C5, as amended. Reordering the labels within the rows never changes
    what the function returns; reordering the rows as well does not
    change it on a dataset whose squared row lengths sum to at most
    [2^53]. *)
Theorem float_reordering_invariance data data' :
  (Forall2 (≡ₚ) data data' →
   Float64.agreement_rate_by_category data =
   Float64.agreement_rate_by_category data') ∧
  (exact_range data → reordered data data' →
   Float64.agreement_rate_by_category data =
   Float64.agreement_rate_by_category data').
Proof.
  split.
  - intros Hrows. unfold Float64.agreement_rate_by_category.
    by rewrite (float_accumulate_within_rows data data').
  - intros Hd Hre.
    assert (exact_range data') as Hd'
      by (unfold exact_range; by rewrite <- (weight_reordered data data')).
    rewrite !float_exact by done. by apply reordering_invariance.
Qed.

(** C6, as amended. For every dataset and label the accumulated agreement
    and potential counts are non-negative integers; the agreement count
    is at most the potential count whenever the latter is positive and the
    squared row lengths of the dataset sum to at most [2^53]. *)
Theorem float_counts_nonneg_and_ordered data cat :
  0 ≤ get (agreement (Float64.accumulate data)) cat ∧
  0 ≤ get (potential (Float64.accumulate data)) cat ∧
  (exact_range data →
   0 < get (potential (Float64.accumulate data)) cat →
   get (agreement (Float64.accumulate data)) cat ≤
   get (potential (Float64.accumulate data)) cat).
Proof.
  destruct (float_counts_nonneg data cat) as [Ha Hp].
  split; [done|]. split; [done|]. intros Hd.
  rewrite (accumulate_exact data Hd), get_agreement, get_potential.
  intros _. apply agreement_le_potential.
Qed.

(** C10, as amended. On a dataset whose squared row lengths sum to at most
    [2^53], for a label with positive accumulated potential the rate
    [agreement[cat] / potential[cat]] is exactly 1 if and only if every
    row in which the label occurs consists of that label only; this is
    the rate stored under the label in every mapping the function
    returns. *)
Theorem float_rate_one_iff_unanimous data cat :
  exact_range data →
  0 < get (potential (Float64.accumulate data)) cat →
  (true_div (get (agreement (Float64.accumulate data)) cat)
            (get (potential (Float64.accumulate data)) cat) = Some 1%Q ↔
   ∀ row, row ∈ data → cat ∈ row → ∀ x, x ∈ row → x = cat) ∧
  ∀ m, Float64.agreement_rate_by_category data = Some m →
    (m !! cat = Some 1%Q ↔
     ∀ row, row ∈ data → cat ∈ row → ∀ x, x ∈ row → x = cat).
Proof.
  intros Hd. rewrite float_exact, (accumulate_exact data Hd) by done.
  apply rate_one_iff_unanimous.
Qed.

(** X3. On a concatenation whose squared row lengths sum to at most
    [2^53], the counts are the sums of the counts of the two parts, and a
    label is a key exactly when it is a key for one of the parts. *)
Theorem float_accumulators_additive data data' cat :
  exact_range (data ++ data') →
  get (agreement (Float64.accumulate (data ++ data'))) cat =
    get (agreement (Float64.accumulate data)) cat +
    get (agreement (Float64.accumulate data')) cat ∧
  get (potential (Float64.accumulate (data ++ data'))) cat =
    get (potential (Float64.accumulate data)) cat +
    get (potential (Float64.accumulate data')) cat ∧
  (is_Some (agreement (Float64.accumulate (data ++ data')) !! cat) ↔
   is_Some (agreement (Float64.accumulate data) !! cat) ∨
   is_Some (agreement (Float64.accumulate data') !! cat)).
Proof.
  intros Hd. destruct (exact_range_app _ _ Hd) as [H1 H2].
  rewrite !accumulate_exact by done. apply accumulators_additive.
Qed.

(** X4. On a dataset whose squared row lengths sum to at most [2^53], the
    potential count of a label is its agreement count plus, summed over
    the rows, [count * (len(row) - count)]. *)
Theorem float_potential_is_agreement_plus_split data cat :
  exact_range data →
  get (potential (Float64.accumulate data)) cat =
    get (agreement (Float64.accumulate data)) cat +
    sum_rows (λ row, count row cat * (len row - count row cat)) data.
Proof.
  intros Hd. rewrite accumulate_exact by done.
  apply potential_is_agreement_plus_split.
Qed.

(** X5. On a dataset whose squared row lengths sum to at most [2^53], if
    every row has at least two labels and all labels of a row are equal,
    the function returns the rate 1 for every label that occurs, and
    nothing else. *)
Theorem float_uniform_rows_rate_one data :
  exact_range data →
  (∀ row, row ∈ data →
     (2 ≤ length row)%nat ∧ ∀ x y, x ∈ row → y ∈ row → x = y) →
  ∃ m, Float64.agreement_rate_by_category data = Some m ∧
    ∀ cat, m !! cat = if decide (observed data cat) then Some 1%Q else None.
Proof.
  intros Hd Huni. rewrite float_exact by done.
  destruct (unanimous_rates data Huni) as (m & Hm & Hrates).
  exists m. split; [done|]. intros cat.
  destruct (decide (observed data cat)) as [Ho|Ho]; [by apply Hrates|].
  by rewrite (rate_lookup _ _ cat Hm), decide_False.
Qed.

(** X7. Repeating the whole dataset [k ≥ 1] times does not change the
    result, as long as the squared row lengths of the repeated dataset
    sum to at most [2^53]. *)
Theorem float_repetition_invariance (k : nat) data :
  (1 ≤ k)%nat → exact_range (mjoin (replicate k data)) →
  Float64.agreement_rate_by_category (mjoin (replicate k data)) =
  Float64.agreement_rate_by_category data.
Proof.
  intros Hk Hd. pose proof (exact_range_repeat k data Hk Hd).
  rewrite !float_exact by done. by apply repeated_rates.
Qed.

(** X10. On a dataset whose squared row lengths sum to at most [2^53], no
    float operation of the function rounds: the two dictionaries hold the
    exact integer counts [choose2] and the loops define, and the result is
    the one exact arithmetic gives. *)
Theorem float_exact_on_small_data data :
  exact_range data →
  Float64.accumulate data = accumulate data ∧
  Float64.agreement_rate_by_category data = agreement_rate_by_category data.
Proof.
  intros Hd. split; [by apply accumulate_exact | by apply float_exact].
Qed.

(** X21. Whatever the number of rows, if every row has at most [2^63]
    labels then every accumulated float stays between 0 and [2^190], far
    below the largest double: no operation overflows. *)
Theorem float_counts_bounded data cat :
  (∀ row, row ∈ data → len row ≤ 2 ^ 63) →
  0 ≤ get (agreement (Float64.accumulate data)) cat ≤ 2 ^ 190 ∧
  0 ≤ get (potential (Float64.accumulate data)) cat ≤ 2 ^ 190.
Proof. apply no_overflow. Qed.
End float_properties.

(** ** Where double precision departs from exact arithmetic *)

(** One row of 94906267 copies of the label 0: the square of its length
    is just above [2^53]. *)
Lemma float_long_row_state :
  Float64.accumulate [copies 94906267 0] =
    Accs {[0 := 4503599710484511]} {[0 := 4503599710484510]}.
Proof.
  unfold Float64.accumulate, Float64.accumulate_from. cbn [foldl].
  rewrite float_step_copies by lia. vm_compute. reflexivity.
Qed.

Lemma float_long_row_rate :
  Float64.agreement_rate_by_category [copies 94906267 0] =
    Some {[0 := (4503599710484511 # 4503599710484510)%Q]}.
Proof.
  unfold Float64.agreement_rate_by_category. rewrite float_long_row_state.
  vm_compute. reflexivity.
Qed.

(** C3 as stated fails in double precision: on one row of 94906267 copies
    of 0 the potential is positive, the exact quotient is 1, and the
    function returns 4503599710484511 / 4503599710484510. *)
Lemma float_rate_not_exact_quotient :
  ¬ ((∀ cat : Z, observed [copies 94906267 0] cat →
        0 < get (potential (Float64.accumulate [copies 94906267 0])) cat) →
     ∃ m, Float64.agreement_rate_by_category [copies 94906267 0] = Some m ∧
       ∀ cat : Z, m !! cat =
         if decide (observed [copies 94906267 0] cat)
         then Some (Qred (inject_Z (agreement_total [copies 94906267 0] cat) /
                          inject_Z (potential_total [copies 94906267 0] cat)))
         else None).
Proof.
  intros Hclaim. destruct Hclaim as (m & Hm & Hrates).
  - intros cat Ho. apply observed_copies in Ho as ->; [|lia].
    rewrite float_long_row_state. vm_compute. reflexivity.
  - rewrite float_long_row_rate in Hm. injection Hm as <-.
    specialize (Hrates 0).
    rewrite decide_True in Hrates by (apply observed_copies; [lia | done]).
    rewrite agreement_total_copies, potential_total_copies in Hrates by lia.
    vm_compute in Hrates. discriminate Hrates.
Qed.

(** C4 as stated fails in double precision: the rate returned for that
    row is above 1. *)
Lemma float_rate_above_one :
  ∃ (m : gmap Z Q) (r : Q),
    Float64.agreement_rate_by_category [copies 94906267 0] = Some m ∧
    m !! 0 = Some r ∧ ¬ (0 <= r <= 1)%Q.
Proof.
  exists {[0 := (4503599710484511 # 4503599710484510)%Q]},
         (4503599710484511 # 4503599710484510)%Q.
  split; [apply float_long_row_rate|]. split; [reflexivity|].
  intros [_ Hle]. vm_compute in Hle. by apply Hle.
Qed.

(** C6 as stated fails in double precision: for that row the accumulated
    agreement exceeds the accumulated potential, which is positive. *)
Lemma float_agreement_above_potential :
  0 < get (potential (Float64.accumulate [copies 94906267 0])) 0 ∧
  ¬ (get (agreement (Float64.accumulate [copies 94906267 0])) 0 ≤
     get (potential (Float64.accumulate [copies 94906267 0])) 0).
Proof.
  rewrite float_long_row_state. split; [vm_compute; reflexivity|].
  intros Hle. vm_compute in Hle. by apply Hle.
Qed.

(** C10 as stated fails in double precision: the only row consists of the
    label 0 alone and the potential is positive, but the returned rate of
    0 is not 1. *)
Lemma float_unanimous_rate_not_one :
  0 < get (potential (Float64.accumulate [copies 94906267 0])) 0 ∧
  (∀ row : list Z, row ∈ [copies 94906267 0] → 0 ∈ row →
     ∀ x, x ∈ row → x = 0) ∧
  ∃ m : gmap Z Q,
    Float64.agreement_rate_by_category [copies 94906267 0] = Some m ∧
    m !! 0 ≠ Some 1%Q.
Proof.
  split; [rewrite float_long_row_state; vm_compute; reflexivity|]. split.
  - intros row Hrow _. by apply (unanimous_copies 94906267 0 row).
  - exists {[0 := (4503599710484511 # 4503599710484510)%Q]}.
    split; [apply float_long_row_rate|]. intros Heq. vm_compute in Heq.
    discriminate Heq.
Qed.

(** C5 as stated fails in double precision: with a row of 134217729
    copies of 0 and two rows [[0, 1]], the floats added to [potential[0]]
    are absorbed when the long row comes first and are not when it comes
    last. *)
Lemma float_reordering_changes_rate :
  reordered [copies 134217729 0; [0; 1]; [0; 1]]
            [[0; 1]; [0; 1]; copies 134217729 0] ∧
  Float64.agreement_rate_by_category [copies 134217729 0; [0; 1]; [0; 1]] ≠
  Float64.agreement_rate_by_category [[0; 1]; [0; 1]; copies 134217729 0].
Proof.
  split.
  - exists [[0; 1]; [0; 1]; copies 134217729 0]. split.
    + apply (Permutation_cons_append [[0; 1]; [0; 1]]).
    + do 3 (constructor 2; [apply Permutation_refl|]). constructor 1.
  - unfold Float64.agreement_rate_by_category, Float64.accumulate,
      Float64.accumulate_from.
    cbn [foldl]. rewrite !float_step_copies by lia.
    vm_compute. intros Heq. discriminate Heq.
Qed.

(** ** The double-precision properties at concrete inputs *)

Lemma exact_range_small : exact_range [[0; 0; 1]].
Proof. unfold exact_range. apply Z.leb_le. vm_compute. reflexivity. Qed.

Lemma float_rate_is_agreement_over_potential_witness :
  exact_range [[0; 0; 1]] ∧
  (∀ cat : Z, observed [[0; 0; 1]] cat →
     0 < get (potential (Float64.accumulate [[0; 0; 1]])) cat) ∧
  ∃ m, Float64.agreement_rate_by_category [[0; 0; 1]] = Some m ∧
    ∀ cat : Z, m !! cat =
      if decide (observed [[0; 0; 1]] cat)
      then Some (Qred (inject_Z (agreement_total [[0; 0; 1]] cat) /
                       inject_Z (potential_total [[0; 0; 1]] cat)))
      else None.
Proof.
  assert (Hpos : ∀ cat : Z, observed [[0; 0; 1]] cat →
            0 < get (potential (Float64.accumulate [[0; 0; 1]])) cat).
  { intros cat (row & Hrow & Hcat).
    apply list_elem_of_singleton in Hrow as ->.
    repeat (apply elem_of_cons in Hcat as [->|Hcat]);
      [vm_compute; reflexivity .. | by apply elem_of_nil in Hcat]. }
  exact (conj exact_range_small
           (conj Hpos (float_rate_is_agreement_over_potential
                         [[0; 0; 1]] exact_range_small Hpos))).
Defined.

Lemma float_rate_range_witness :
  Float64.agreement_rate_by_category [[0; 0; 1]] =
    Some (list_to_map [(0, (1 # 3)%Q); (1, 0%Q)]) ∧
  (0 <= 1 # 3)%Q ∧ (exact_range [[0; 0; 1]] → (1 # 3 <= 1)%Q).
Proof.
  assert (Hm : Float64.agreement_rate_by_category [[0; 0; 1]] =
               Some (list_to_map [(0, (1 # 3)%Q); (1, 0%Q)]))
    by (vm_compute; reflexivity).
  split; [exact Hm|].
  apply (float_rate_range [[0; 0; 1]] _ 0 (1 # 3)%Q Hm). reflexivity.
Defined.

Lemma float_reordering_invariance_witness :
  exact_range [[0; 1]; [1; 1]] ∧
  reordered [[0; 1]; [1; 1]] [[1; 1]; [1; 0]] ∧
  Float64.agreement_rate_by_category [[0; 1]; [1; 1]] =
    Float64.agreement_rate_by_category [[1; 1]; [1; 0]].
Proof.
  assert (Hd : exact_range [[0; 1]; [1; 1]])
    by (unfold exact_range; apply Z.leb_le; vm_compute; reflexivity).
  assert (Hre : reordered [[0; 1]; [1; 1]] [[1; 1]; [1; 0]]).
  { exists [[1; 1]; [0; 1]]. split; [apply perm_swap|].
    repeat constructor. }
  exact (conj Hd (conj Hre
           (proj2 (float_reordering_invariance _ _) Hd Hre))).
Defined.

Lemma float_counts_nonneg_and_ordered_witness :
  exact_range [[0; 0; 1]] ∧
  0 < get (potential (Float64.accumulate [[0; 0; 1]])) 0 ∧
  get (agreement (Float64.accumulate [[0; 0; 1]])) 0 ≤
    get (potential (Float64.accumulate [[0; 0; 1]])) 0.
Proof.
  assert (Hpos : 0 < get (potential (Float64.accumulate [[0; 0; 1]])) 0)
    by (vm_compute; reflexivity).
  split; [exact exact_range_small|]. split; [exact Hpos|].
  exact (proj2 (proj2 (float_counts_nonneg_and_ordered [[0; 0; 1]] 0))
           exact_range_small Hpos).
Defined.

Lemma float_rate_one_iff_unanimous_witness :
  exact_range [[0; 0]; [1; 2]] ∧
  0 < get (potential (Float64.accumulate [[0; 0]; [1; 2]])) 0 ∧
  Float64.agreement_rate_by_category [[0; 0]; [1; 2]] =
    Some (list_to_map [(0, 1%Q); (1, 0%Q); (2, 0%Q)]) ∧
  ((list_to_map [(0, 1%Q); (1, 0%Q); (2, 0%Q)] : gmap Z Q) !! 0 = Some 1%Q ↔
   ∀ row : list Z, row ∈ [[0; 0]; [1; 2]] → 0 ∈ row → ∀ x, x ∈ row → x = 0).
Proof.
  assert (Hd : exact_range [[0; 0]; [1; 2]])
    by (unfold exact_range; apply Z.leb_le; vm_compute; reflexivity).
  assert (Hpos : 0 < get (potential (Float64.accumulate [[0; 0]; [1; 2]])) 0)
    by (vm_compute; reflexivity).
  assert (Hm : Float64.agreement_rate_by_category [[0; 0]; [1; 2]] =
               Some (list_to_map [(0, 1%Q); (1, 0%Q); (2, 0%Q)]))
    by (vm_compute; reflexivity).
  exact (conj Hd (conj Hpos (conj Hm
           (proj2 (float_rate_one_iff_unanimous _ 0 Hd Hpos) _ Hm)))).
Defined.

Lemma float_accumulators_additive_witness :
  exact_range ([[0; 0; 1]] ++ [[0; 1]]) ∧
  get (agreement (Float64.accumulate ([[0; 0; 1]] ++ [[0; 1]]))) 0 =
    get (agreement (Float64.accumulate [[0; 0; 1]])) 0 +
    get (agreement (Float64.accumulate [[0; 1]])) 0.
Proof.
  assert (Hd : exact_range ([[0; 0; 1]] ++ [[0; 1]]))
    by (unfold exact_range; apply Z.leb_le; vm_compute; reflexivity).
  exact (conj Hd (proj1 (float_accumulators_additive [[0; 0; 1]] [[0; 1]] 0 Hd))).
Defined.

Lemma float_potential_is_agreement_plus_split_witness :
  exact_range [[0; 0; 1]] ∧
  get (potential (Float64.accumulate [[0; 0; 1]])) 0 =
    get (agreement (Float64.accumulate [[0; 0; 1]])) 0 +
    sum_rows (λ row, count row 0 * (len row - count row 0)) [[0; 0; 1]].
Proof.
  exact (conj exact_range_small
           (float_potential_is_agreement_plus_split [[0; 0; 1]] 0
              exact_range_small)).
Defined.

Lemma float_uniform_rows_rate_one_witness :
  exact_range [[0; 0]; [1; 1; 1]] ∧
  (∀ row : list Z, row ∈ [[0; 0]; [1; 1; 1]] →
     (2 ≤ length row)%nat ∧ ∀ x y, x ∈ row → y ∈ row → x = y) ∧
  ∃ m, Float64.agreement_rate_by_category [[0; 0]; [1; 1; 1]] = Some m ∧
    ∀ cat : Z, m !! cat =
      if decide (observed [[0; 0]; [1; 1; 1]] cat) then Some 1%Q else None.
Proof.
  assert (Hd : exact_range [[0; 0]; [1; 1; 1]])
    by (unfold exact_range; apply Z.leb_le; vm_compute; reflexivity).
  assert (Huni : ∀ row : list Z, row ∈ [[0; 0]; [1; 1; 1]] →
            (2 ≤ length row)%nat ∧ ∀ x y, x ∈ row → y ∈ row → x = y).
  { intros row Hrow.
    repeat (apply elem_of_cons in Hrow as [->|Hrow]);
      [| | by apply elem_of_nil in Hrow];
      (split; [cbn; lia|]); intros x y Hx Hy;
      repeat (apply elem_of_cons in Hx as [->|Hx]);
      try (by apply elem_of_nil in Hx);
      repeat (apply elem_of_cons in Hy as [->|Hy]);
      by apply elem_of_nil in Hy || done. }
  exact (conj Hd (conj Huni (float_uniform_rows_rate_one _ Hd Huni))).
Defined.

Lemma float_repetition_invariance_witness :
  (1 ≤ 2)%nat ∧ exact_range (mjoin (replicate 2 [[0; 0; 1]])) ∧
  Float64.agreement_rate_by_category (mjoin (replicate 2 [[0; 0; 1]])) =
  Float64.agreement_rate_by_category [[0; 0; 1]].
Proof.
  assert (Hk : (1 ≤ 2)%nat) by lia.
  assert (Hd : exact_range (mjoin (replicate 2 [[0; 0; 1]])))
    by (unfold exact_range; apply Z.leb_le; vm_compute; reflexivity).
  exact (conj Hk (conj Hd (float_repetition_invariance 2 [[0; 0; 1]] Hk Hd))).
Defined.

Lemma float_exact_on_small_data_witness :
  exact_range [[0; 0; 1]] ∧
  Float64.accumulate [[0; 0; 1]] = accumulate [[0; 0; 1]] ∧
  Float64.agreement_rate_by_category [[0; 0; 1]] =
    agreement_rate_by_category [[0; 0; 1]].
Proof.
  exact (conj exact_range_small
           (float_exact_on_small_data [[0; 0; 1]] exact_range_small)).
Defined.

Lemma float_counts_bounded_witness :
  (∀ row : list Z, row ∈ [[0; 0; 1]] → len row ≤ 2 ^ 63) ∧
  0 ≤ get (agreement (Float64.accumulate [[0; 0; 1]])) 0 ≤ 2 ^ 190.
Proof.
  assert (Hlen : ∀ row : list Z, row ∈ [[0; 0; 1]] → len row ≤ 2 ^ 63).
  { intros row Hrow%list_elem_of_singleton. subst row.
    apply Z.leb_le. vm_compute. reflexivity. }
  exact (conj Hlen (proj1 (float_counts_bounded [[0; 0; 1]] 0 Hlen))).
Defined.
